(** * daxe: Option / Result combinators, Fenwick tree and union-find

    A shallow embedding of the algorithmic core of the daxe header library
    (include/daxe/safe.h and include/daxe/graph.h) together with proofs of
    the properties its specification states about it.

    Conventions.
    - [i64] values are integers of [Z]; every arithmetic operation of the
      source on them is written with its two's complement wrap-around
      ([add64], [sub64], [neg64]).
    - A [std::vector<i64>] is a [list Z]; [operator[]] is [vec_get] /
      [vec_set], which report an access outside the vector instead of
      performing it.
    - A call of the library ends in an [outcome]: a value, an access outside
      a vector, a loop or recursion that did not finish within the fuel it
      was given, a C++ exception of the standard library, or [panic]. *)

From Stdlib Require Import ZArith Lia String.
From stdpp Require Import base tactics option list numbers.

Local Open Scope Z_scope.

(** ** Outcomes of a call *)

Inductive outcome (A : Type) : Type :=
  | Done (a : A)
  | OutOfBounds
  | OutOfFuel
  | Throws
  | Panicked (diagnostic : string).

Arguments Done {A} a.
Arguments OutOfBounds {A}.
Arguments OutOfFuel {A}.
Arguments Throws {A}.
Arguments Panicked {A} diagnostic.

#[global] Instance outcome_ret : MRet outcome := λ A a, Done a.

#[global] Instance outcome_bind : MBind outcome := λ A B k m,
  match m with
  | Done a => k a
  | OutOfBounds => OutOfBounds
  | OutOfFuel => OutOfFuel
  | Throws => Throws
  | Panicked s => Panicked s
  end.

(** ** 64-bit signed integers *)

Module I64.

Definition min_i64 : Z := - 2 ^ 63.
Definition max_i64 : Z := 2 ^ 63 - 1.

Definition in_i64 (z : Z) : Prop := min_i64 <= z <= max_i64.

Definition wrap64 (z : Z) : Z := (z + 2 ^ 63) mod 2 ^ 64 - 2 ^ 63.

Definition add64 (a b : Z) : Z := wrap64 (a + b).
Definition sub64 (a b : Z) : Z := wrap64 (a - b).
Definition neg64 (a : Z) : Z := wrap64 (- a).

(** [i & (-i)] of the source. *)
Definition lowbit (i : Z) : Z := Z.land i (neg64 i).

(** [std::vector<i64>::max_size()] for the usual 64-bit ABI: the largest
    [ptrdiff_t] divided by the size of an element. A request for more
    elements makes the vector constructor throw [std::length_error]. *)
Definition vector_max_size : Z := 2 ^ 60 - 1.

(** [v[i]] read, with the index converted to [size_t] as the source does. *)
Definition vec_get (v : list Z) (i : Z) : outcome Z :=
  if i <? 0 then OutOfBounds
  else match v !! Z.to_nat i with
       | Some x => Done x
       | None => OutOfBounds
       end.

(** [v[i] = x]. *)
Definition vec_set (v : list Z) (i x : Z) : outcome (list Z) :=
  if (i <? 0) || (Z.of_nat (length v) <=? i) then OutOfBounds
  else Done (<[Z.to_nat i := x]> v).

End I64.

Import I64.

(** ** Fenwick tree (graph.h, class FenwickTree) *)

Module Fenwick.

Record FenwickTree : Type := mkFenwick { tree : list Z; n : Z }.

(** [explicit FenwickTree(i64 size) : tree(static_cast<size_t>(size + 1), 0), n(size)] *)
Definition new (size : Z) : outcome FenwickTree :=
  let cells := add64 size 1 in
  if (0 <=? cells) && (cells <=? vector_max_size)
  then Done (mkFenwick (replicate (Z.to_nat cells) 0) size)
  else Throws.

(** [for (...; i <= n; i += i & (-i)) tree[i] += delta;] *)
Fixpoint update_loop (fuel : nat) (tr : list Z) (n i delta : Z) : outcome (list Z) :=
  match fuel with
  | O => OutOfFuel
  | S fuel' =>
      if i <=? n then
        v ← vec_get tr i;
        tr' ← vec_set tr i (add64 v delta);
        update_loop fuel' tr' n (add64 i (lowbit i)) delta
      else Done tr
  end.

(** The fuel handed to the two loops: they move the index strictly towards
    their bound, so [n + 1] tests of the loop condition are enough. *)
Definition loop_fuel (n : Z) : nat := S (Z.to_nat n).

Definition update (t : FenwickTree) (i delta : Z) : outcome FenwickTree :=
  if (i <? 0) || (i >=? n t) then Done t
  else
    tr ← update_loop (loop_fuel (n t)) (tree t) (n t) (add64 i 1) delta;
    Done (mkFenwick tr (n t)).

(** [for (...; i > 0; i -= i & (-i)) sum += tree[i];] *)
Fixpoint query_loop (fuel : nat) (tr : list Z) (i sum : Z) : outcome Z :=
  match fuel with
  | O => OutOfFuel
  | S fuel' =>
      if i >? 0 then
        v ← vec_get tr i;
        query_loop fuel' tr (sub64 i (lowbit i)) (add64 sum v)
      else Done sum
  end.

Definition query (t : FenwickTree) (i : Z) : outcome Z :=
  if i <? 0 then Done 0
  else
    let i := if i >=? n t then sub64 (n t) 1 else i in
    query_loop (loop_fuel (n t)) (tree t) (add64 i 1) 0.

Definition rangequery (t : FenwickTree) (l r : Z) : outcome Z :=
  if (l >? r) || (r <? 0) || (l >=? n t) then Done 0
  else
    qr ← query t r;
    ql ← (if l >? 0 then query t (sub64 l 1) else Done 0);
    Done (sub64 qr ql).

(** The cells the two loops touch, in order. *)
Fixpoint update_cells (fuel : nat) (n i : Z) : list Z :=
  match fuel with
  | O => []
  | S fuel' =>
      if i <=? n then i :: update_cells fuel' n (add64 i (lowbit i)) else []
  end.

Fixpoint query_cells (fuel : nat) (i : Z) : list Z :=
  match fuel with
  | O => []
  | S fuel' =>
      if i >? 0 then i :: query_cells fuel' (sub64 i (lowbit i)) else []
  end.

Definition update_accesses (t : FenwickTree) (i : Z) : list Z :=
  if (i <? 0) || (i >=? n t) then []
  else update_cells (loop_fuel (n t)) (n t) (add64 i 1).

Definition query_accesses (t : FenwickTree) (i : Z) : list Z :=
  if i <? 0 then []
  else
    let i := if i >=? n t then sub64 (n t) 1 else i in
    query_cells (loop_fuel (n t)) (add64 i 1).

(** Adding [delta] to the cells of a list, and summing the cells of a list,
    with the accesses the loops use. *)
Fixpoint write_cells (tr : list Z) (cells : list Z) (delta : Z) : outcome (list Z) :=
  match cells with
  | [] => Done tr
  | j :: cells' =>
      v ← vec_get tr j;
      tr' ← vec_set tr j (add64 v delta);
      write_cells tr' cells' delta
  end.

Fixpoint read_cells (tr : list Z) (cells : list Z) (sum : Z) : outcome Z :=
  match cells with
  | [] => Done sum
  | j :: cells' => v ← vec_get tr j; read_cells tr cells' (add64 sum v)
  end.

(** A sequence of [update(i, delta)] calls. *)
Fixpoint updates (t : FenwickTree) (us : list (Z * Z)) : outcome FenwickTree :=
  match us with
  | [] => Done t
  | (i, delta) :: us' => t' ← update t i delta; updates t' us'
  end.

(** The sum of the deltas applied at positions of [[l, r]]. *)
Fixpoint delta_sum (us : list (Z * Z)) (l r : Z) : Z :=
  match us with
  | [] => 0
  | (i, delta) :: us' =>
      (if (l <=? i) && (i <=? r) then delta else 0) + delta_sum us' l r
  end.

(** The same sum as a brute-force loop over the applied updates computes
    it, with an [i64] accumulator. *)
Definition brute_force_sum (us : list (Z * Z)) (l r : Z) : Z :=
  foldl (λ acc u, if (l <=? u.1) && (u.1 <=? r) then add64 acc u.2 else acc) 0 us.

(** Cell [j] of the internal array (1-based) aggregates the block of
    [lowbit j] positions that ends at it; [covers j p] says that this block
    contains the 1-based position [p]. *)
Definition covers (j p : Z) : bool := (j - lowbit j <? p) && (p <=? j).

(** The vector has [n + 1] cells and could be allocated. *)
Definition wf (t : FenwickTree) : Prop :=
  0 ≤ n t + 1 ≤ vector_max_size ∧ Z.of_nat (length (tree t)) = n t + 1.

(** [t] is the tree obtained from the updates [us]. *)
Definition represents (t : FenwickTree) (us : list (Z * Z)) : Prop :=
  wf t ∧
  ∀ j, 1 ≤ j ≤ n t →
    tree t !! Z.to_nat j = Some (wrap64 (delta_sum us (j - lowbit j) (j - 1))).

(** The calls a client can make, and a run of them collecting the results
    of the queries. *)
Inductive call : Type :=
  | CallUpdate (i delta : Z)
  | CallQuery (i : Z)
  | CallRangequery (l r : Z).

Definition step (t : FenwickTree) (c : call) : outcome (FenwickTree * list Z) :=
  match c with
  | CallUpdate i delta => t' ← update t i delta; Done (t', [])
  | CallQuery i => v ← query t i; Done (t, [v])
  | CallRangequery l r => v ← rangequery t l r; Done (t, [v])
  end.

Fixpoint run (t : FenwickTree) (cs : list call) : outcome (FenwickTree * list Z) :=
  match cs with
  | [] => Done (t, [])
  | c :: cs' =>
      '(t1, vs1) ← step t c;
      '(t2, vs2) ← run t1 cs';
      Done (t2, vs1 ++ vs2)
  end.

(** The cells a call reads or writes. *)
Definition accesses (t : FenwickTree) (c : call) : list Z :=
  match c with
  | CallUpdate i _ => update_accesses t i
  | CallQuery i => query_accesses t i
  | CallRangequery l r =>
      if (l >? r) || (r <? 0) || (l >=? n t) then []
      else query_accesses t r ++ (if l >? 0 then query_accesses t (sub64 l 1) else [])
  end.

(** The cells touched during a run, call after call. *)
Fixpoint run_accesses (t : FenwickTree) (cs : list call) : list Z :=
  match cs with
  | [] => []
  | c :: cs' =>
      accesses t c ++
      match step t c with
      | Done (t1, _) => run_accesses t1 cs'
      | _ => []
      end
  end.

(** A call carried out through [read_cells] and [write_cells] on the cells
    listed by [accesses], and a run of such calls. *)
Definition step_cells (t : FenwickTree) (c : call) : outcome (FenwickTree * list Z) :=
  match c with
  | CallUpdate i delta =>
      tr ← write_cells (tree t) (update_accesses t i) delta;
      Done (mkFenwick tr (n t), [])
  | CallQuery i =>
      v ← read_cells (tree t) (query_accesses t i) 0;
      Done (t, [v])
  | CallRangequery l r =>
      if (l >? r) || (r <? 0) || (l >=? n t) then Done (t, [0])
      else
        qr ← read_cells (tree t) (query_accesses t r) 0;
        ql ← (if l >? 0 then read_cells (tree t) (query_accesses t (sub64 l 1)) 0
              else Done 0);
        Done (t, [sub64 qr ql])
  end.

Fixpoint run_cells (t : FenwickTree) (cs : list call) : outcome (FenwickTree * list Z) :=
  match cs with
  | [] => Done (t, [])
  | c :: cs' =>
      '(t1, vs1) ← step_cells t c;
      '(t2, vs2) ← run_cells t1 cs';
      Done (t2, vs1 ++ vs2)
  end.

End Fenwick.

(** ** Union-find (graph.h, class DSU) *)

Module Dsu.

Record DSU : Type := mkDSU { parent : list Z; rank_ : list Z }.

(** [static_cast<i64>(parent.size())] *)
Definition size (d : DSU) : Z := Z.of_nat (length (parent d)).

(** [explicit DSU(i64 n)]: both vectors get [static_cast<size_t>(n)]
    elements, [parent] is filled by [std::iota]. *)
Definition new (n : Z) : outcome DSU :=
  if (0 <=? n) && (n <=? vector_max_size)
  then Done (mkDSU (seqZ 0 n) (replicate (Z.to_nat n) 0))
  else Throws.

(** [find], with one unit of fuel for each level of the recursion. *)
Fixpoint find_rec (fuel : nat) (d : DSU) (x : Z) : outcome (Z * DSU) :=
  match fuel with
  | O => OutOfFuel
  | S fuel' =>
      if (x <? 0) || (x >=? size d) then Done (-1, d)
      else
        px ← vec_get (parent d) x;
        d' ← (if negb (px =? x) then
                '(r, d1) ← find_rec fuel' d px;
                p' ← vec_set (parent d1) x r;
                Done (mkDSU p' (rank_ d1))
              else Done d);
        v ← vec_get (parent d') x;
        Done (v, d')
  end.

(** A path of a forest over [parent.size()] nodes has fewer edges than
    there are nodes, which bounds the depth of the recursion. *)
Definition find (d : DSU) (x : Z) : outcome (Z * DSU) :=
  find_rec (S (length (parent d))) d x.

Definition unite (d : DSU) (x y : Z) : outcome (bool * DSU) :=
  '(px, d1) ← find d x;
  '(py, d2) ← find d1 y;
  if (px <? 0) || (py <? 0) || (px =? py) then Done (false, d2)
  else
    rx ← vec_get (rank_ d2) px;
    ry ← vec_get (rank_ d2) py;
    let '(px, py) := if rx <? ry then (py, px) else (px, py) in
    p' ← vec_set (parent d2) py px;
    rx ← vec_get (rank_ d2) px;
    ry ← vec_get (rank_ d2) py;
    r' ← (if rx =? ry then vec_set (rank_ d2) px (add64 rx 1) else Done (rank_ d2));
    Done (true, mkDSU p' r').

Definition connected (d : DSU) (x y : Z) : outcome (bool * DSU) :=
  '(px, d1) ← find d x;
  '(py, d2) ← find d1 y;
  Done ((px >=? 0) && (py >=? 0) && (px =? py), d2).

(** [for (size_t i = 0; i < parent.size(); ++i) if (find(i) == i) count++;] *)
Fixpoint components_loop (fuel : nat) (d : DSU) (i count : Z) : outcome (Z * DSU) :=
  match fuel with
  | O => OutOfFuel
  | S fuel' =>
      if i <? size d then
        '(r, d1) ← find d i;
        components_loop fuel' d1 (i + 1) (if r =? i then add64 count 1 else count)
      else Done (count, d)
  end.

Definition components (d : DSU) : outcome (Z * DSU) :=
  components_loop (S (length (parent d))) d 0 0.

(** *** Roots, paths and the forest invariant *)

(** [root_from fuel p x]: the root reached from [x] by following the parent
    entries, if one is reached within [fuel] nodes. *)
Fixpoint root_from (fuel : nat) (p : list Z) (x : Z) : option Z :=
  match fuel with
  | O => None
  | S fuel' =>
      if x <? 0 then None
      else match p !! Z.to_nat x with
           | None => None
           | Some y => if y =? x then Some x else root_from fuel' p y
           end
  end.

Definition root (d : DSU) (x : Z) : option Z :=
  root_from (length (parent d)) (parent d) x.

(** The invariant of the data model: the two vectors have the same size,
    and from every node the parent entries lead to a root [r] with
    [parent[r] == r] (so every entry met is a valid index and there is no
    cycle). *)
Definition forest (d : DSU) : bool :=
  Nat.eqb (length (rank_ d)) (length (parent d)) &&
  (size d <=? vector_max_size) &&
  forallb (λ x, match root d x with Some _ => true | None => false end)
          (seqZ 0 (size d)).

(** [root_in p k x r]: the path from [x] to its root [r] has [k] edges. *)
Inductive root_in (p : list Z) : nat → Z → Z → Prop :=
  | root_here x :
      0 ≤ x → p !! Z.to_nat x = Some x → root_in p O x x
  | root_up k x y r :
      0 ≤ x → p !! Z.to_nat x = Some y → y ≠ x → root_in p k y r →
      root_in p (S k) x r.

(** The [i]-th ancestor of [x]. *)
Definition ancestor (p : list Z) (i : nat) (x : Z) : Z :=
  Nat.iter i (λ z, default z (p !! Z.to_nat z)) x.

(** The nodes [find] visits below the root, from [x] upwards. *)
Fixpoint path_nodes (fuel : nat) (p : list Z) (x : Z) : list Z :=
  match fuel with
  | O => []
  | S fuel' =>
      match p !! Z.to_nat x with
      | Some y => if y =? x then [] else x :: path_nodes fuel' p y
      | None => []
      end
  end.

Definition path (d : DSU) (x : Z) : list Z :=
  path_nodes (length (parent d)) (parent d) x.

(** Path compression: the parent entry of every node of [zs] is rewritten
    to [r], the node nearest to the root first. *)
Definition redirect (p : list Z) (zs : list Z) (r : Z) : list Z :=
  foldr (λ z q, <[Z.to_nat z := r]> q) p zs.

(** Two states describe the same partition, with the same representatives. *)
Definition same_roots (d d' : DSU) : Prop :=
  size d' = size d ∧ ∀ x, root d' x = root d x.

Definition same_set (d : DSU) (x y : Z) : bool :=
  match root d x, root d y with
  | Some rx, Some ry => rx =? ry
  | _, _ => false
  end.

(** The number of nodes that are their own parent. *)
Definition count_roots (d : DSU) : Z :=
  Z.of_nat (length (filter (λ x, parent d !! Z.to_nat x = Some x) (seqZ 0 (size d)))).

(** The roots among the nodes [i, i+1, ...]. *)
Definition count_from (d : DSU) (i : Z) : Z :=
  Z.of_nat (length (filter (λ x, root d x = Some x) (seqZ i (size d - i)))).

(** What [unite] does once the two roots [rx] and [ry] are known to differ:
    the root of lower rank goes under the other; with equal ranks [ry] goes
    under [rx], whose rank grows by one. *)
Definition link (d : DSU) (rx ry kx ky : Z) : DSU :=
  let '(win, lose) := if kx <? ky then (ry, rx) else (rx, ry) in
  mkDSU (<[Z.to_nat lose := win]> (parent d))
        (if kx =? ky then <[Z.to_nat rx := add64 kx 1]> (rank_ d) else rank_ d).

(** The public operations, for statements about all of them. *)
Inductive call : Type :=
  | CallFind (x : Z)
  | CallUnite (x y : Z)
  | CallConnected (x y : Z)
  | CallComponents.

Definition step (d : DSU) (c : call) : outcome DSU :=
  match c with
  | CallFind x => '(_, d') ← find d x; Done d'
  | CallUnite x y => '(_, d') ← unite d x y; Done d'
  | CallConnected x y => '(_, d') ← connected d x y; Done d'
  | CallComponents => '(_, d') ← components d; Done d'
  end.

Definition is_query (c : call) : bool :=
  match c with CallUnite _ _ => false | _ => true end.

End Dsu.

(** ** Option and Result (safe.h) *)

Module Safe.

(** A callable passed to a combinator may have effects of its own: it runs
    on a state of some type [W] and ends in an [outcome]. *)
Definition eff (W A : Type) : Type := W → outcome (A * W).

Definition eff_ret {W A} (a : A) : eff W A := λ w, Done (a, w).

Definition eff_bind {W A B} (m : eff W A) (k : A → eff W B) : eff W B :=
  λ w, match m w with
       | Done (a, w') => k a w'
       | OutOfBounds => OutOfBounds
       | OutOfFuel => OutOfFuel
       | Throws => Throws
       | Panicked s => Panicked s
       end.

(** [panic(msg)]: writes the diagnostic line to [std::cerr] and calls
    [std::terminate()]; it is [[noreturn]]. *)
Definition panic {W A} (msg : string) : eff W A :=
  λ _, Panicked ("[DAXE PANIC]: " ++ msg)%string.

(** *** Option<T> *)

Definition Option (T : Type) : Type := option T.

Definition issome {T} (o : Option T) : bool :=
  match o with Some _ => true | None => false end.

Definition isnone {T} (o : Option T) : bool := negb (issome o).

Definition unwrap {W T} (o : Option T) : eff W T :=
  match o with
  | None => panic "called unwrap() on None Option"
  | Some v => eff_ret v
  end.

Definition map {W T U} (o : Option T) (f : T → eff W U) : eff W (Option U) :=
  match o with
  | Some v => eff_bind (f v) (λ u, eff_ret (Some u))
  | None => eff_ret None
  end.

Definition then_ {W T U} (o : Option T) (f : T → eff W (Option U)) : eff W (Option U) :=
  match o with
  | Some v => f v
  | None => eff_ret None
  end.

Definition otherwise {W T} (o : Option T) (f : unit → eff W T) : eff W T :=
  match o with
  | Some v => eff_ret v
  | None => f tt
  end.

Definition valueor {T} (o : Option T) (def : T) : T :=
  match o with Some v => v | None => def end.

(** *** Result<T, E> *)

Inductive Result (T E : Type) : Type :=
  | Ok (value : T)
  | Err (error : E).

Arguments Ok {T E} value.
Arguments Err {T E} error.

Definition isok {T E} (r : Result T E) : bool :=
  match r with Ok _ => true | Err _ => false end.

Definition iserr {T E} (r : Result T E) : bool :=
  match r with Ok _ => false | Err _ => true end.

Definition result_unwrap {W T E} (r : Result T E) : eff W T :=
  match r with
  | Err _ => panic "called unwrap() on Err Result"
  | Ok v => eff_ret v
  end.

Definition result_error {W T E} (r : Result T E) : eff W E :=
  match r with
  | Ok _ => panic "called error() on Ok Result"
  | Err e => eff_ret e
  end.

Definition result_map {W T U E} (r : Result T E) (f : T → eff W U) : eff W (Result U E) :=
  match r with
  | Ok v => eff_bind (f v) (λ u, eff_ret (Ok u))
  | Err e => eff_ret (Err e)
  end.

Definition result_then {W T U E} (r : Result T E) (f : T → eff W (Result U E))
  : eff W (Result U E) :=
  match r with
  | Ok v => f v
  | Err e => eff_ret (Err e)
  end.

Definition result_otherwise {W T E} (r : Result T E) (f : E → eff W T) : eff W T :=
  match r with
  | Ok v => eff_ret v
  | Err e => f e
  end.

(** A callable that counts its invocations in the state before it runs. *)
Definition counted {W A B} (f : A → eff W B) : A → eff (nat * W) B :=
  λ a '(calls, w),
    match f a w with
    | Done (b, w') => Done (b, (S calls, w'))
    | OutOfBounds => OutOfBounds
    | OutOfFuel => OutOfFuel
    | Throws => Throws
    | Panicked s => Panicked s
    end.

End Safe.

(** ** Runs of union-find calls, ranks and set sizes *)

Module DsuRuns.
Import Dsu.

(** A sequence of [unite] calls, counting those that return true. *)
Fixpoint unites (d : DSU) (ps : list (Z * Z)) : outcome (Z * DSU) :=
  match ps with
  | [] => Done (0, d)
  | (x, y) :: ps' =>
      '(b, d1) ← unite d x y;
      '(k, d2) ← unites d1 ps';
      Done ((if (b : bool) then 1 else 0) + k, d2)
  end.

(** A sequence of calls of any of the four operations. *)
Fixpoint run (d : DSU) (cs : list call) : outcome DSU :=
  match cs with
  | [] => Done d
  | c :: cs' => d1 ← step d c; run d1 cs'
  end.

(** [rank_[x]], and the number of nodes whose root is [r]. *)
Definition rk (d : DSU) (x : Z) : Z := default 0 (rank_ d !! Z.to_nat x).

Definition set_size (d : DSU) (r : Z) : Z :=
  Z.of_nat (length (filter (λ x, root d x = Some r) (seqZ 0 (size d)))).

(** Union by rank: ranks are not negative, they grow strictly from a node
    to its parent, and a root of rank [k] has at least [2^k] nodes in its
    set. *)
Definition ranked (d : DSU) : Prop :=
  (∀ x, 0 ≤ rk d x) ∧
  (∀ x y, 0 ≤ x → parent d !! Z.to_nat x = Some y → y ≠ x → rk d x < rk d y) ∧
  (∀ r, root d r = Some r → 2 ^ rk d r ≤ set_size d r).

End DsuRuns.

(** ** Adjacency lists (graph.h, Graph) *)

Module Graphs.

(** [using Graph = std::vector<std::vector<i64>>] *)
Abbreviation Graph := (list (list Z)).

(** [max_size()] of a vector whose elements are vectors (three words each). *)
Definition graph_max_size : Z := (2 ^ 63 - 1) `div` 24.

(** [makegraph(n)]: [Graph(static_cast<size_t>(n))]. *)
Definition makegraph (n : Z) : outcome Graph :=
  if (0 <=? n) && (n <=? graph_max_size)
  then Done (replicate (Z.to_nat n) [])
  else Throws.

Definition nodecount (g : Graph) : Z := Z.of_nat (length g).

(** [g[u].push_back(v)], for an index the caller has checked. *)
Definition push_back (g : Graph) (u v : Z) : Graph :=
  alter (λ adj, adj ++ [v]) (Z.to_nat u) g.

Definition addedge (g : Graph) (u v : Z) : Graph :=
  let n := nodecount g in
  if (u >=? 0) && (u <? n) && (v >=? 0) && (v <? n)
  then push_back (push_back g u v) v u
  else g.

Definition adddirected (g : Graph) (u v : Z) : Graph :=
  let n := nodecount g in
  if (u >=? 0) && (u <? n) && (v >=? 0) && (v <? n)
  then push_back g u v
  else g.

(** [for (const auto& adj : g) count += static_cast<i64>(adj.size());] *)
Definition edgecount (g : Graph) : Z :=
  foldl (λ count adj, add64 count (Z.of_nat (length adj))) 0 g.

Definition degree (g : Graph) (node : Z) : Z :=
  if (node <? 0) || (node >=? nodecount g) then 0
  else match g !! Z.to_nat node with
       | Some adj => Z.of_nat (length adj)
       | None => 0
       end.

(** The adjacency list of a node, empty for an index that is no node. *)
Definition adj (g : Graph) (u : Z) : list Z :=
  if u <? 0 then [] else default [] (g !! Z.to_nat u).

(** A sequence of [addedge] calls, and the calls among them whose two
    endpoints are nodes of a graph with [n] nodes. *)
Definition addedges (g : Graph) (es : list (Z * Z)) : Graph :=
  foldl (λ g e, addedge g e.1 e.2) g es.

Definition valid_edges (n : Z) (es : list (Z * Z)) : list (Z * Z) :=
  filter (λ e, 0 ≤ e.1 < n ∧ 0 ≤ e.2 < n) es.

End Graphs.

(** ** Safe access and checked arithmetic (safe.h), grid bounds (grid.h),
       first / last / max / argmax (functions.h) *)

Module Helpers.
Import Safe.

(** [getat(c, idx)]: a negative index counts from the end. *)
Definition getat {T} (c : list T) (idx : Z) : Option T :=
  let n := Z.of_nat (length c) in
  let idx := if idx <? 0 then add64 idx n else idx in
  if (idx <? 0) || (idx >=? n) then None
  else c !! Z.to_nat idx.

Definition getor {T} (c : list T) (idx : Z) (def : T) : T :=
  valueor (getat c idx) def.

(** [first(c)] and [last(c)] of functions.h. *)
Definition first {T} (c : list T) : Option T :=
  match c with [] => None | x :: _ => Some x end.

Definition last {T} (c : list T) : Option T :=
  match c with [] => None | _ => c !! (length c - 1)%nat end.

(** [a / b] and [a % b] of C++ truncate towards zero. *)
Definition trydiv (a b : Z) : Result Z string :=
  if b =? 0 then Err "Division by zero"%string else Ok (wrap64 (Z.quot a b)).

Definition trymod (a b : Z) : Result Z string :=
  if b =? 0 then Err "Modulo by zero"%string else Ok (wrap64 (Z.rem a b)).

Definition inbounds (value low high : Z) : bool :=
  (value >=? low) && (value <? high).

Definition clamp (value low high : Z) : Z :=
  if value <? low then low else if value >? high then high else value.

(** [static_cast<u64>(z)] *)
Definition to_u64 (z : Z) : Z := z mod 2 ^ 64.

Definition ingrid (r c rows cols : Z) : bool :=
  (to_u64 r <? to_u64 rows) && (to_u64 c <? to_u64 cols).

(** [inbounds(r, c, rows, cols)] of grid.h. *)
Definition grid_inbounds (r c rows cols : Z) : bool :=
  (r >=? 0) && (r <? rows) && (c >=? 0) && (c <? cols).

(** [toindex] and [tocoord] of grid.h. *)
Definition toindex (r c cols : Z) : Z := add64 (wrap64 (r * cols)) c.

Definition tocoord (index cols : Z) : Z * Z :=
  (wrap64 (Z.quot index cols), wrap64 (Z.rem index cols)).

(** [std::max_element]: the position of the first greatest element of a
    non-empty range ([largest] moves only to a strictly greater element). *)
Fixpoint max_element_from (best : nat) (bestv : Z) (i : nat) (v : list Z) : nat :=
  match v with
  | [] => best
  | x :: v' =>
      if bestv <? x then max_element_from i x (S i) v'
      else max_element_from best bestv (S i) v'
  end.

Definition max_element (v : list Z) : nat :=
  match v with
  | [] => O
  | x :: v' => max_element_from O x 1 v'
  end.

(** [max(v)] and [argmax(v)] on a vector. *)
Definition max (v : list Z) : Option Z :=
  match v with
  | [] => None
  | _ => v !! max_element v
  end.

Definition argmax (v : list Z) : Option Z :=
  match v with
  | [] => None
  | _ => Some (Z.of_nat (max_element v))
  end.

End Helpers.

(** * Proofs *)

(** ** Arithmetic of [i64] *)

(** Case analysis on the integer comparisons of the source. *)
Ltac zcmp :=
  rewrite ?Z.gtb_ltb, ?Z.geb_leb in *;
  repeat match goal with
  | |- context [Z.ltb ?a ?b] => destruct (Z.ltb_spec a b)
  | |- context [Z.leb ?a ?b] => destruct (Z.leb_spec a b)
  | H : context [Z.ltb ?a ?b] |- _ => destruct (Z.ltb_spec a b)
  | H : context [Z.leb ?a ?b] |- _ => destruct (Z.leb_spec a b)
  | |- context [Z.eqb ?a ?b] => destruct (Z.eqb_spec a b)
  | H : context [Z.eqb ?a ?b] |- _ => destruct (Z.eqb_spec a b)
  end; simpl in *.

Ltac i64_bounds := unfold in_i64, min_i64, max_i64, vector_max_size in *.

Module I64Facts.

Lemma vec_get_Some (v : list Z) i x :
  0 ≤ i → v !! Z.to_nat i = Some x → vec_get v i = Done x.
Proof. intros Hi Hx. unfold vec_get. zcmp; [lia|]. by rewrite Hx. Qed.

Lemma vec_set_in (v : list Z) i x :
  0 ≤ i < Z.of_nat (length v) → vec_set v i x = Done (<[Z.to_nat i := x]> v).
Proof. intros Hi. unfold vec_set. zcmp; (lia || done). Qed.

Lemma wrap64_id z : in_i64 z → wrap64 z = z.
Proof.
  unfold in_i64, min_i64, max_i64, wrap64. intros Hz.
  rewrite Z.mod_small; lia.
Qed.

Lemma wrap64_in_i64 z : in_i64 (wrap64 z).
Proof.
  unfold in_i64, min_i64, max_i64, wrap64.
  pose proof (Z.mod_pos_bound (z + 2 ^ 63) (2 ^ 64)). lia.
Qed.

Lemma wrap64_shift z k : wrap64 (z + k * 2 ^ 64) = wrap64 z.
Proof.
  unfold wrap64. f_equal.
  replace (z + k * 2 ^ 64 + 2 ^ 63) with (z + 2 ^ 63 + k * 2 ^ 64) by lia.
  apply Z_mod_plus_full.
Qed.

Lemma wrap64_eq z : ∃ k, wrap64 z = z + k * 2 ^ 64.
Proof.
  exists (- ((z + 2 ^ 63) / 2 ^ 64)). unfold wrap64.
  rewrite Z.mod_eq by lia. lia.
Qed.

Lemma wrap64_add_l a b : wrap64 (wrap64 a + b) = wrap64 (a + b).
Proof.
  destruct (wrap64_eq a) as [k ->].
  replace (a + k * 2 ^ 64 + b) with (a + b + k * 2 ^ 64) by lia.
  apply wrap64_shift.
Qed.

Lemma wrap64_add_r a b : wrap64 (a + wrap64 b) = wrap64 (a + b).
Proof. rewrite Z.add_comm, wrap64_add_l. f_equal. lia. Qed.

Lemma add64_wrap a b : add64 (wrap64 a) (wrap64 b) = wrap64 (a + b).
Proof. unfold add64. by rewrite wrap64_add_l, wrap64_add_r. Qed.

Lemma sub64_wrap a b : sub64 (wrap64 a) (wrap64 b) = wrap64 (a - b).
Proof.
  unfold sub64.
  destruct (wrap64_eq a) as [k ->]. destruct (wrap64_eq b) as [k' ->].
  replace (a + k * 2 ^ 64 - (b + k' * 2 ^ 64)) with (a - b + (k - k') * 2 ^ 64) by lia.
  apply wrap64_shift.
Qed.

Lemma add64_id a b : in_i64 (a + b) → add64 a b = a + b.
Proof. apply wrap64_id. Qed.

Lemma sub64_id a b : in_i64 (a - b) → sub64 a b = a - b.
Proof. apply wrap64_id. Qed.

(** *** The lowest set bit *)

Lemma land_neg_double x : Z.land (2 * x) (- (2 * x)) = 2 * Z.land x (- x).
Proof.
  replace (- (2 * x)) with (Z.shiftl (- x) 1) by (rewrite Z.shiftl_mul_pow2; lia).
  replace (2 * x) with (Z.shiftl x 1) by (rewrite Z.shiftl_mul_pow2; lia).
  rewrite <- Z.shiftl_land, Z.shiftl_mul_pow2; lia.
Qed.

Lemma land_neg_odd m : Z.land (2 * m + 1) (- (2 * m + 1)) = 1.
Proof.
  replace (- (2 * m + 1)) with (2 * Z.lnot m + 1) by (unfold Z.lnot; lia).
  apply Z.bits_inj'. intros k Hk. rewrite Z.land_spec.
  destruct (Z.eq_dec k 0) as [-> | Hne].
  - by rewrite !Z.testbit_odd_0.
  - replace k with (Z.succ (k - 1)) by lia.
    rewrite !Z.testbit_odd_succ by lia.
    rewrite Z.lnot_spec, andb_negb_r by lia.
    pose proof (Z.testbit_odd_succ 0 (k - 1) ltac:(lia)) as H1.
    change (2 * 0 + 1) with 1 in H1. by rewrite H1, Z.testbit_0_l.
Qed.

Lemma land_neg_pow2 k x : 0 ≤ k → Z.land (2 ^ k * x) (- (2 ^ k * x)) = 2 ^ k * Z.land x (- x).
Proof.
  intros Hk. revert x. pattern k. apply natlike_ind; [| | done].
  - intros x. rewrite Z.pow_0_r. by rewrite !Z.mul_1_l.
  - intros j Hj IH x. rewrite Z.pow_succ_r by done.
    rewrite <- !Z.mul_assoc, land_neg_double, IH. lia.
Qed.

(** Every positive integer is a power of two times an odd number. *)
Lemma odd_part (x : Z) : 0 < x → ∃ k m, 0 ≤ k ∧ 0 ≤ m ∧ x = 2 ^ k * (2 * m + 1).
Proof.
  destruct x as [|p|p]; [lia| |lia]. intros _.
  induction p as [p IH|p IH|].
  - exists 0, (Z.pos p). repeat split; lia.
  - destruct IH as (k & m & Hk & Hm & E). exists (Z.succ k), m.
    repeat split; [lia|done|]. rewrite Z.pow_succ_r by done. lia.
  - exists 0, 0. repeat split; lia.
Qed.

Lemma lowbit_plain i : 0 < i ≤ max_i64 → lowbit i = Z.land i (- i).
Proof.
  intros Hi. unfold lowbit, neg64. rewrite wrap64_id; [done|].
  unfold in_i64, min_i64, max_i64 in *. lia.
Qed.

Lemma lowbit_pow2_odd k m :
  0 ≤ k → 0 ≤ m → 2 ^ k * (2 * m + 1) ≤ max_i64 → lowbit (2 ^ k * (2 * m + 1)) = 2 ^ k.
Proof.
  intros Hk Hm Hle. rewrite lowbit_plain by nia.
  rewrite land_neg_pow2, land_neg_odd by done. lia.
Qed.

Lemma lowbit_bounds i : 0 < i ≤ max_i64 → 1 ≤ lowbit i ≤ i.
Proof.
  intros Hi. destruct (odd_part i) as (k & m & Hk & Hm & ->); [lia|].
  rewrite lowbit_pow2_odd by (done || lia). nia.
Qed.

(** Between [i] and [i + lowbit i] the low bit is that of the offset. *)
Lemma lowbit_offset i d : 0 < i → 0 < d < lowbit i → i + d ≤ max_i64 → lowbit (i + d) = lowbit d.
Proof.
  intros Hi Hd Hmax.
  destruct (odd_part i) as (k & m & Hk & Hm & ->); [done|].
  rewrite lowbit_pow2_odd in Hd by (done || lia).
  destruct (odd_part d) as (k' & m' & Hk' & Hm' & ->); [lia|].
  assert (k' < k) as Hlt.
  { destruct (Z.lt_ge_cases k' k) as [|Hge]; [done|].
    pose proof (Z.pow_le_mono_r 2 k k' ltac:(lia) Hge). nia. }
  rewrite (lowbit_pow2_odd k' m') by (done || lia).
  replace k with (k' + Z.succ (k - k' - 1)) by lia.
  rewrite Z.pow_add_r, Z.pow_succ_r by lia.
  set (q := 2 ^ (k - k' - 1)). assert (0 < q) by (apply Z.pow_pos_nonneg; lia).
  replace (2 ^ k' * (2 * q) * (2 * m + 1) + 2 ^ k' * (2 * m' + 1))
    with (2 ^ k' * (2 * (q * (2 * m + 1) + m') + 1)) by lia.
  apply lowbit_pow2_odd; [done|nia|].
  replace k with (k' + Z.succ (k - k' - 1)) in Hmax by lia.
  rewrite Z.pow_add_r, Z.pow_succ_r in Hmax by lia. fold q in Hmax. lia.
Qed.

(** One step of the update walk at least doubles the low bit. *)
Lemma lowbit_next i : 0 < i → i + lowbit i ≤ max_i64 → 2 * lowbit i ≤ lowbit (i + lowbit i).
Proof.
  intros Hi Hmax.
  assert (0 ≤ lowbit i) as Hnn by (apply Z.land_nonneg; lia).
  destruct (odd_part i) as (k & m & Hk & Hm & ->); [done|].
  assert (0 < 2 ^ k) by (apply Z.pow_pos_nonneg; lia).
  rewrite lowbit_pow2_odd in Hmax |- * by (done || lia).
  rewrite lowbit_plain by nia.
  replace (2 ^ k * (2 * m + 1) + 2 ^ k) with (2 ^ Z.succ k * (m + 1))
    by (rewrite Z.pow_succ_r by done; lia).
  rewrite land_neg_pow2 by lia.
  destruct (odd_part (m + 1)) as (k2 & m2 & Hk2 & Hm2 & ->); [lia|].
  rewrite land_neg_pow2, land_neg_odd by done.
  assert (0 < 2 ^ k2) by (apply Z.pow_pos_nonneg; lia).
  rewrite Z.pow_succ_r by done. nia.
Qed.

End I64Facts.

(** ** Fenwick tree *)

Module FenwickFacts.
Import I64Facts Fenwick.

(** *** Sums of deltas *)

Lemma delta_sum_empty us l r : r < l → delta_sum us l r = 0.
Proof.
  intros Hlt. induction us as [|[i d] us IH]; [done|]. simpl. rewrite IH.
  zcmp; lia.
Qed.

Lemma delta_sum_split us l m r :
  l ≤ m → m ≤ r + 1 → delta_sum us l r = delta_sum us l (m - 1) + delta_sum us m r.
Proof.
  intros Hl Hr. induction us as [|[i d] us IH]; [done|]. simpl. rewrite IH.
  zcmp; lia.
Qed.

Lemma delta_sum_snoc us i d l r :
  delta_sum (us ++ [(i, d)]) l r =
  delta_sum us l r + (if (l <=? i) && (i <=? r) then d else 0).
Proof. induction us as [|[i' d'] us IH]; simpl; [lia|]. rewrite IH. lia. Qed.

Lemma brute_force_fold us l r : ∀ acc,
  foldl (λ acc u, if (l <=? u.1) && (u.1 <=? r) then add64 acc u.2 else acc)
        (wrap64 acc) us
  = wrap64 (acc + delta_sum us l r).
Proof.
  induction us as [|[i d] us IH]; intros acc; simpl.
  - by rewrite Z.add_0_r.
  - destruct ((l <=? i) && (i <=? r)).
    + unfold add64. rewrite wrap64_add_l, IH. f_equal; lia.
    + rewrite IH. f_equal; lia.
Qed.

Lemma brute_force_sum_spec us l r : brute_force_sum us l r = wrap64 (delta_sum us l r).
Proof. exact (brute_force_fold us l r 0). Qed.

(** *** The walk of [query] *)

Lemma query_loop_spec t us hi :
  represents t us →
  ∀ fuel i, 0 ≤ i ≤ n t → i ≤ hi + 1 → (Z.to_nat i < fuel)%nat →
    query_loop fuel (tree t) i (wrap64 (delta_sum us i hi)) =
    Done (wrap64 (delta_sum us 0 hi)).
Proof.
  intros [[Hn Hlen] Hcells]. induction fuel as [|fuel IH]; intros i Hi Hhi Hfuel; [lia|].
  simpl. zcmp.
  - assert (i ≤ max_i64) as Hmax by (i64_bounds; lia).
    assert (1 ≤ lowbit i ≤ i) as Hlb by (apply lowbit_bounds; lia).
    rewrite (vec_get_Some (tree t) i _ ltac:(lia) (Hcells i ltac:(lia))). simpl.
    rewrite sub64_id by (i64_bounds; lia).
    rewrite add64_wrap.
    rewrite (Z.add_comm (delta_sum us i hi)).
    replace (delta_sum us (i - lowbit i) (i - 1) + delta_sum us i hi)
      with (delta_sum us (i - lowbit i) hi)
      by (apply delta_sum_split; lia).
    apply IH; lia.
  - assert (i = 0) as -> by lia. done.
Qed.

Lemma query_cells_range fuel i j :
  0 ≤ i ≤ max_i64 → j ∈ query_cells fuel i → 1 ≤ j ≤ i.
Proof.
  revert i. induction fuel as [|fuel IH]; intros i Hi; simpl; [by intros ?%elem_of_nil|].
  zcmp; [|by intros ?%elem_of_nil].
  assert (1 ≤ lowbit i ≤ i) as Hlb by (apply lowbit_bounds; lia).
  rewrite sub64_id by (i64_bounds; lia).
  intros [->|Hj]%elem_of_cons; [lia|]. apply IH in Hj; lia.
Qed.

Lemma wf_clamp t i : wf t → 0 ≤ i →
  let i' := if i >=? n t then sub64 (n t) 1 else i in
  add64 i' 1 = Z.min i (n t - 1) + 1.
Proof.
  intros [Hn Hlen] Hi. simpl. zcmp.
  - rewrite sub64_id, add64_id by (i64_bounds; lia). lia.
  - rewrite add64_id by (i64_bounds; lia). lia.
Qed.

Lemma query_spec t us i :
  represents t us → 0 ≤ i →
  query t i = Done (wrap64 (delta_sum us 0 (Z.min i (n t - 1)))).
Proof.
  intros Hrep Hi. pose proof Hrep as [[Hn Hlen] _]. unfold query.
  destruct (i <? 0) eqn:E; [zcmp; lia|].
  rewrite wf_clamp by done.
  remember (Z.min i (n t - 1)) as hi eqn:Ehi.
  destruct (Z.le_gt_cases (hi + 1) 0) as [Hle|Hgt].
  - rewrite delta_sum_empty by lia. unfold loop_fuel. simpl. zcmp; (lia || done).
  - pose proof (query_loop_spec t us hi Hrep (loop_fuel (n t)) (hi + 1)) as Hq.
    rewrite (delta_sum_empty us (hi + 1) hi) in Hq by lia.
    apply Hq; unfold loop_fuel; lia.
Qed.

Lemma query_negative t i : i < 0 → query t i = Done 0.
Proof. intros Hi. unfold query. zcmp; (lia || done). Qed.

(** *** The walk of [update] *)

Lemma covers_next i p :
  0 < i → i + lowbit i ≤ max_i64 → covers i p = true → covers (i + lowbit i) p = true.
Proof.
  intros Hi Hmax Hc. unfold covers in *.
  pose proof (lowbit_next i Hi Hmax).
  assert (1 ≤ lowbit i ≤ i) by (apply lowbit_bounds; i64_bounds; lia).
  zcmp; (lia || done).
Qed.

Lemma covers_between i j p :
  0 < i → p ≤ i → i < j < i + lowbit i → j ≤ max_i64 → covers j p = false.
Proof.
  intros Hi Hp Hj Hmax. unfold covers.
  replace (lowbit j) with (lowbit (i + (j - i))) by (f_equal; lia).
  rewrite lowbit_offset by lia.
  assert (1 ≤ lowbit (j - i) ≤ j - i) by (apply lowbit_bounds; lia).
  zcmp; (lia || done).
Qed.

Lemma update_loop_spec delta p n :
  1 ≤ p → n + 1 ≤ vector_max_size →
  ∀ fuel (tr : list Z) i,
    p ≤ i → (i ≤ n → covers i p = true) →
    Z.of_nat (length tr) = n + 1 → (Z.to_nat (n + 1 - i) < fuel)%nat →
    ∃ tr', update_loop fuel tr n i delta = Done tr' ∧ length tr' = length tr ∧
      ∀ j, 1 ≤ j ≤ n →
        tr' !! Z.to_nat j =
        (λ v, if (i <=? j) && covers j p then add64 v delta else v) <$> tr !! Z.to_nat j.
Proof.
  intros Hp Hn. induction fuel as [|fuel IH]; intros tr i Hi Hcov Hlen Hfuel; [lia|].
  simpl. destruct (Z.leb_spec i n) as [Hin|Hin].
  - specialize (Hcov Hin).
    destruct (lookup_lt_is_Some_2 tr (Z.to_nat i)) as [v Hv]; [lia|].
    rewrite (vec_get_Some tr i v) by (lia || done). simpl.
    rewrite vec_set_in by lia. simpl.
    assert (1 ≤ lowbit i ≤ i) as Hlb by (apply lowbit_bounds; i64_bounds; lia).
    assert (i + lowbit i ≤ max_i64) as Hmax by (i64_bounds; lia).
    rewrite (add64_id i (lowbit i)) by (i64_bounds; lia).
    destruct (IH (<[Z.to_nat i:=add64 v delta]> tr) (i + lowbit i))
      as (tr' & Hrun & Hlen' & Hcells).
    { lia. }
    { intros _. apply covers_next; (lia || done). }
    { rewrite length_insert. lia. }
    { lia. }
    exists tr'. split; [done|]. split; [by rewrite Hlen', length_insert|].
    intros j Hj. rewrite Hcells by done.
    destruct (Z.eq_dec j i) as [->|Hne].
    + rewrite list_lookup_insert_eq, Hv by lia. simpl. f_equal.
      rewrite Hcov. zcmp; (lia || done).
    + rewrite list_lookup_insert_ne by lia.
      destruct (tr !! Z.to_nat j) as [w|]; [|done]. simpl. f_equal.
      destruct (Z.leb_spec (i + lowbit i) j), (Z.leb_spec i j); simpl; try (lia || done).
      rewrite (covers_between i j p) by (i64_bounds; lia). done.
  - exists tr. split; [done|]. split; [done|]. intros j Hj.
    destruct (Z.leb_spec i j); [lia|]. simpl. by destruct (tr !! Z.to_nat j).
Qed.

Lemma update_out_of_range t i delta : i < 0 ∨ n t ≤ i → update t i delta = Done t.
Proof. intros Hi. unfold update. zcmp; (lia || done). Qed.

Lemma update_spec t us i delta :
  represents t us → 0 ≤ i < n t →
  ∃ t', update t i delta = Done t' ∧ represents t' (us ++ [(i, delta)]) ∧ n t' = n t.
Proof.
  intros [[Hn Hlen] Hcells] Hi. unfold update.
  destruct ((i <? 0) || (i >=? n t)) eqn:E; [zcmp; lia|].
  rewrite add64_id by (i64_bounds; lia).
  assert (1 ≤ lowbit (i + 1) ≤ i + 1) as Hlb by (apply lowbit_bounds; i64_bounds; lia).
  destruct (update_loop_spec delta (i + 1) (n t) ltac:(lia) ltac:(lia)
              (loop_fuel (n t)) (tree t) (i + 1))
    as (tr' & Hrun & Hlen' & Hcells').
  { lia. }
  { intros _. unfold covers. zcmp; (lia || done). }
  { done. }
  { unfold loop_fuel. lia. }
  rewrite Hrun. simpl. eexists. split; [done|]. split; [|done].
  split; [split; simpl; [done|lia]|]. simpl. intros j Hj.
  rewrite Hcells', Hcells by done. simpl. f_equal.
  rewrite delta_sum_snoc. unfold covers, add64. rewrite wrap64_add_l.
  zcmp; f_equal; lia.
Qed.

Lemma updates_spec us : ∀ t h,
  represents t h → Forall (λ u, 0 ≤ u.1 < n t) us →
  ∃ t', updates t us = Done t' ∧ represents t' (h ++ us) ∧ n t' = n t.
Proof.
  induction us as [|[i d] us IH]; intros t h Hrep Hus; simpl.
  - exists t. by rewrite app_nil_r.
  - inversion Hus as [|u us' Hi Hus']; subst. simpl in Hi.
    destruct (update_spec t h i d Hrep Hi) as (t1 & -> & Hrep1 & Hn1). simpl.
    destruct (IH t1 (h ++ [(i, d)]) Hrep1) as (t' & Hrun & Hrep' & Hn').
    { by rewrite Hn1. }
    exists t'. rewrite <- app_assoc in Hrep'. split; [done|]. split; [done|]. lia.
Qed.

(** *** Construction *)

Lemma new_spec size :
  0 ≤ size + 1 ≤ vector_max_size →
  new size = Done (mkFenwick (replicate (Z.to_nat (size + 1)) 0) size) ∧
  represents (mkFenwick (replicate (Z.to_nat (size + 1)) 0) size) [].
Proof.
  intros Hsize. unfold new. rewrite add64_id by (i64_bounds; lia).
  split; [zcmp; (lia || done)|].
  split; [split; simpl; [done|rewrite length_replicate; lia]|].
  simpl. intros j Hj. rewrite lookup_replicate_2 by lia. done.
Qed.

Lemma new_throws size :
  in_i64 size → size + 1 < 0 ∨ vector_max_size < size + 1 → new size = Throws.
Proof.
  intros Hi Hsize. unfold new, add64.
  destruct (Z.eq_dec size max_i64) as [->|Hne]; [done|].
  rewrite wrap64_id by (i64_bounds; lia). zcmp; (lia || done).
Qed.

(** *** Range queries *)

Lemma rangequery_empty t l r : l > r ∨ r < 0 ∨ n t ≤ l → rangequery t l r = Done 0.
Proof. intros H. unfold rangequery. zcmp; (lia || done). Qed.

Lemma rangequery_unfold t l r :
  wf t → l ≤ r → 0 ≤ r → l < n t →
  rangequery t l r = (qr ← query t r; ql ← query t (l - 1); Done (sub64 qr ql)).
Proof.
  intros [Hn Hlen] Hlr Hr Hl. unfold rangequery.
  destruct ((l >? r) || (r <? 0) || (l >=? n t)) eqn:E; [zcmp; lia|].
  destruct (query t r) as [qr| | | |]; simpl; try done.
  destruct (Z.ltb_spec 0 l) as [Hpos|Hneg]; rewrite Z.gtb_ltb.
  - destruct (Z.ltb_spec 0 l); [|lia]. by rewrite sub64_id by (i64_bounds; lia).
  - destruct (Z.ltb_spec 0 l); [lia|]. by rewrite query_negative by lia.
Qed.

Lemma query_spec_all t us i :
  represents t us → query t i = Done (wrap64 (delta_sum us 0 (Z.min i (n t - 1)))).
Proof.
  intros Hrep. destruct (Z.lt_ge_cases i 0).
  - rewrite query_negative, delta_sum_empty by lia. done.
  - by apply query_spec.
Qed.

Lemma rangequery_spec t us l r :
  represents t us →
  rangequery t l r = Done (wrap64 (delta_sum us (Z.max l 0) (Z.min r (n t - 1)))).
Proof.
  intros Hrep.
  destruct (Z.lt_ge_cases r l); [|destruct (Z.lt_ge_cases r 0); [|destruct (Z.lt_ge_cases l (n t))]].
  1, 2, 4: rewrite rangequery_empty, delta_sum_empty by lia; done.
  rewrite rangequery_unfold by (lia || apply Hrep).
  rewrite !(query_spec_all t us) by done. simpl. f_equal.
  rewrite sub64_wrap. f_equal.
  destruct (Z.le_gt_cases l 0).
  - rewrite (delta_sum_empty us 0 (Z.min (l - 1) (n t - 1))) by lia.
    replace (Z.max l 0) with 0 by lia. lia.
  - rewrite (delta_sum_split us 0 l (Z.min r (n t - 1))) by lia.
    replace (Z.min (l - 1) (n t - 1)) with (l - 1) by lia.
    replace (Z.max l 0) with l by lia. lia.
Qed.

(** *** The cells the loops touch *)

Lemma update_loop_cells fuel : ∀ tr n i delta tr',
  update_loop fuel tr n i delta = Done tr' →
  write_cells tr (update_cells fuel n i) delta = Done tr'.
Proof.
  induction fuel as [|fuel IH]; intros tr n i delta tr'; simpl; [done|].
  destruct (i <=? n); [|done]. simpl.
  destruct (vec_get tr i) as [v| | | |]; simpl; try done.
  destruct (vec_set tr i (add64 v delta)) as [tr1| | | |]; simpl; try done.
  apply IH.
Qed.

Lemma query_loop_cells fuel : ∀ tr i sum v,
  query_loop fuel tr i sum = Done v →
  read_cells tr (query_cells fuel i) sum = Done v.
Proof.
  induction fuel as [|fuel IH]; intros tr i sum v; simpl; [done|].
  destruct (i >? 0); [|done]. simpl.
  destruct (vec_get tr i) as [w| | | |]; simpl; try done.
  apply IH.
Qed.

Lemma update_cells_range fuel n : ∀ i j,
  0 < i → n + 1 ≤ vector_max_size → j ∈ update_cells fuel n i → i ≤ j ≤ n.
Proof.
  induction fuel as [|fuel IH]; intros i j Hi Hn; simpl; [by intros ?%elem_of_nil|].
  destruct (Z.leb_spec i n); [|by intros ?%elem_of_nil].
  assert (1 ≤ lowbit i ≤ i) as Hlb by (apply lowbit_bounds; i64_bounds; lia).
  rewrite add64_id by (i64_bounds; lia).
  intros [->|Hj]%elem_of_cons; [lia|]. apply IH in Hj; lia.
Qed.

Lemma update_accesses_range t i j :
  wf t → j ∈ update_accesses t i → 1 ≤ j ≤ n t.
Proof.
  intros [Hn Hlen]. unfold update_accesses.
  destruct ((i <? 0) || (i >=? n t)) eqn:E; [by intros ?%elem_of_nil|].
  assert (0 ≤ i < n t) by (zcmp; lia).
  rewrite add64_id by (i64_bounds; lia).
  intros Hj%update_cells_range; lia.
Qed.

Lemma query_accesses_range t i j :
  wf t → j ∈ query_accesses t i → 1 ≤ j ≤ n t.
Proof.
  intros Hwf. pose proof Hwf as [Hn Hlen]. unfold query_accesses.
  destruct (Z.ltb_spec i 0); [by intros ?%elem_of_nil|].
  rewrite wf_clamp by done.
  destruct (Z.le_gt_cases (Z.min i (n t - 1) + 1) 0).
  - unfold loop_fuel. simpl. zcmp; [lia|]. by intros ?%elem_of_nil.
  - intros Hj%query_cells_range; i64_bounds; lia.
Qed.

Lemma update_cells_eq t i delta t' :
  update t i delta = Done t' →
  (tr ← write_cells (tree t) (update_accesses t i) delta; Done (mkFenwick tr (n t)))
  = Done t'.
Proof.
  unfold update, update_accesses.
  destruct ((i <? 0) || (i >=? n t)); [intros [= <-]; by destruct t|].
  destruct (update_loop _ _ _ _ _) as [tr| | | |] eqn:Hloop; try done.
  by rewrite (update_loop_cells _ _ _ _ _ _ Hloop).
Qed.

Lemma query_cells_eq t i v :
  query t i = Done v → read_cells (tree t) (query_accesses t i) 0 = Done v.
Proof.
  unfold query, query_accesses. destruct (i <? 0); [done|]. apply query_loop_cells.
Qed.

(** Each call is carried out by reading and writing the cells of
    [accesses], and no others. *)
Lemma step_cells_eq t c res : step t c = Done res → step_cells t c = Done res.
Proof.
  destruct c as [i delta|i|l r]; simpl.
  - destruct (update t i delta) as [t'| | | |] eqn:Hu; simpl; try done.
    apply update_cells_eq in Hu.
    destruct (write_cells _ _ _) as [tr| | | |]; simpl in *; try done.
    by intros [= <-]; simplify_eq.
  - destruct (query t i) as [v| | | |] eqn:Hq; simpl; try done.
    by rewrite (query_cells_eq _ _ _ Hq).
  - unfold rangequery. destruct ((l >? r) || (r <? 0) || (l >=? n t)); [done|].
    destruct (query t r) as [qr| | | |] eqn:Hr; simpl; try done.
    rewrite (query_cells_eq _ _ _ Hr). simpl.
    destruct (l >? 0); [|done].
    destruct (query t (sub64 l 1)) as [ql| | | |] eqn:Hl; simpl; try done.
    by rewrite (query_cells_eq _ _ _ Hl).
Qed.

Lemma run_cells_eq cs : ∀ t res, run t cs = Done res → run_cells t cs = Done res.
Proof.
  induction cs as [|c cs IH]; intros t res; simpl; [done|].
  destruct (step t c) as [[t1 vs1]| | | |] eqn:Hstep; simpl; try done.
  rewrite (step_cells_eq _ _ _ Hstep). simpl.
  destruct (run t1 cs) as [[t2 vs2]| | | |] eqn:Hrun; simpl; try done.
  by rewrite (IH _ _ Hrun).
Qed.

Lemma accesses_range t c j : wf t → j ∈ accesses t c → 1 ≤ j ≤ n t.
Proof.
  intros Hwf. destruct c as [i d|i|l r]; simpl.
  - by apply update_accesses_range.
  - by apply query_accesses_range.
  - destruct ((l >? r) || (r <? 0) || (l >=? n t)); [by intros ?%elem_of_nil|].
    intros [Hj|Hj]%elem_of_app; [by eapply query_accesses_range|].
    destruct (l >? 0); [by eapply query_accesses_range|by apply elem_of_nil in Hj].
Qed.

(** *** Runs of calls *)

Lemma update_any t us i delta :
  represents t us → ∃ t' us', update t i delta = Done t' ∧ represents t' us' ∧ n t' = n t
    ∧ (n t = 0 → t' = t).
Proof.
  intros Hrep. destruct (Z.lt_ge_cases i 0); [|destruct (Z.lt_ge_cases i (n t))].
  1, 3: exists t, us; rewrite update_out_of_range by lia; done.
  destruct (update_spec t us i delta Hrep) as (t' & Hrun & Hrep' & Hn); [lia|].
  exists t', (us ++ [(i, delta)]). do 3 (split; [done|]). intros; lia.
Qed.

Lemma step_spec t us c :
  represents t us →
  ∃ t1 vs1 us1, step t c = Done (t1, vs1) ∧ represents t1 us1 ∧ n t1 = n t
    ∧ (n t = 0 → t1 = t ∧ Forall (λ v, v = 0) vs1).
Proof.
  intros Hrep. destruct c as [i d|i|l r]; simpl.
  - destruct (update_any t us i d Hrep) as (t1 & us1 & -> & Hrep1 & Hn1 & Hz).
    exists t1, [], us1. do 3 (split; [done|]). intros H0. split; [by apply Hz|constructor].
  - rewrite (query_spec_all t us) by done. eexists t, _, us.
    do 3 (split; [done|]). intros H0. split; [done|].
    rewrite delta_sum_empty by lia. by repeat constructor.
  - rewrite (rangequery_spec t us) by done. eexists t, _, us.
    do 3 (split; [done|]). intros H0. split; [done|].
    rewrite delta_sum_empty by lia. by repeat constructor.
Qed.

Lemma run_spec cs : ∀ t us,
  represents t us →
  ∃ t' vs us', run t cs = Done (t', vs) ∧ represents t' us' ∧ n t' = n t
    ∧ (∀ j, j ∈ run_accesses t cs → 1 ≤ j ≤ n t)
    ∧ (n t = 0 → t' = t ∧ Forall (λ v, v = 0) vs).
Proof.
  induction cs as [|c cs IH]; intros t us Hrep.
  { exists t, [], us. do 3 (split; [done|]). split; [by intros j ?%elem_of_nil|done]. }
  destruct (step_spec t us c Hrep) as (t1 & vs1 & us1 & Hstep & Hrep1 & Hn1 & Hzero1).
  destruct (IH t1 us1 Hrep1) as (t2 & vs2 & us2 & Hrun & Hrep2 & Hn2 & Hacc & Hzero2).
  exists t2, (vs1 ++ vs2), us2. simpl. rewrite Hstep. simpl. rewrite Hrun. simpl.
  split; [done|]. split; [done|]. split; [lia|]. split.
  - intros j [Hj|Hj]%elem_of_app.
    + eapply accesses_range; [apply Hrep|done].
    + rewrite <- Hn1. by apply Hacc.
  - intros H0. destruct (Hzero1 H0) as [-> Hvs1].
    destruct (Hzero2 H0) as [-> Hvs2]. split; [done|]. by apply Forall_app.
Qed.

End FenwickFacts.

(** ** Union-find *)

Module DsuFacts.
Import I64Facts Dsu.

(** *** Paths to a root *)

Lemma root_in_range p k x r : root_in p k x r → 0 ≤ x < Z.of_nat (length p).
Proof.
  intros H. destruct H as [x Hx Hl|k x y r Hx Hl _ _];
    apply lookup_lt_Some in Hl; lia.
Qed.

Lemma root_in_root p k x r : root_in p k x r → root_in p O r r.
Proof. induction 1; [by constructor|done]. Qed.

Lemma root_in_fun p k x r : root_in p k x r → ∀ k' r', root_in p k' x r' → k = k' ∧ r = r'.
Proof.
  induction 1 as [x Hx Hl|k x y r Hx Hl Hne Hy IH]; intros k' r' H';
    inversion H'; simplify_eq; try done.
  match goal with H : root_in p _ y _ |- _ => destruct (IH _ _ H) as [-> ->] end.
  done.
Qed.

Lemma root_in_self p k w : root_in p k w w → k = O.
Proof.
  intros H. pose proof (root_in_root _ _ _ _ H) as H0.
  by destruct (root_in_fun _ _ _ _ H _ _ H0).
Qed.

Lemma root_from_Some fuel : ∀ p x r,
  root_from fuel p x = Some r → ∃ k, (k < fuel)%nat ∧ root_in p k x r.
Proof.
  induction fuel as [|fuel IH]; intros p x r; simpl; [done|].
  destruct (Z.ltb_spec x 0); [done|].
  destruct (p !! Z.to_nat x) as [y|] eqn:Hl; [|done].
  destruct (Z.eqb_spec y x) as [->|Hne].
  - intros [= <-]. exists O. split; [lia|by constructor].
  - intros (k & Hk & Hy)%IH. exists (S k). split; [lia|by econstructor].
Qed.

Lemma root_from_in p k x r :
  root_in p k x r → ∀ fuel, (k < fuel)%nat → root_from fuel p x = Some r.
Proof.
  induction 1 as [x Hx Hl|k x y r Hx Hl Hne Hy IH]; intros [|fuel] Hfuel; try lia; simpl.
  - destruct (Z.ltb_spec x 0); [lia|]. rewrite Hl. by rewrite Z.eqb_refl.
  - destruct (Z.ltb_spec x 0); [lia|]. rewrite Hl.
    destruct (Z.eqb_spec y x); [done|]. apply IH. lia.
Qed.

Lemma root_in_ancestor p k x r :
  root_in p k x r → ∀ i, (i ≤ k)%nat → root_in p (k - i) (ancestor p i x) r.
Proof.
  intros H i. induction i as [|i IH]; intros Hi.
  - by rewrite Nat.sub_0_r.
  - specialize (IH ltac:(lia)).
    change (ancestor p (S i) x)
      with (default (ancestor p i x) (p !! Z.to_nat (ancestor p i x))).
    remember (k - i)%nat as m eqn:Hm.
    destruct IH as [z Hz Hl|k2 z y r2 Hz Hl Hne Hy]; [lia|].
    rewrite Hl. simpl. by replace (k - S i)%nat with k2 by lia.
Qed.

(** A path to a root visits no node twice, so it is shorter than the
    vector. *)
Lemma root_in_short p k x r : root_in p k x r → (k < length p)%nat.
Proof.
  intros H.
  set (nodes := (λ i, ancestor p i x) <$> seq 0 (S k)).
  assert (NoDup nodes) as Hnd.
  { apply NoDup_fmap_2_strong; [|apply NoDup_seq].
    intros i j [_ Hi]%elem_of_seq [_ Hj]%elem_of_seq Heq.
    pose proof (root_in_ancestor _ _ _ _ H i ltac:(lia)) as Hri.
    pose proof (root_in_ancestor _ _ _ _ H j ltac:(lia)) as Hrj.
    simpl in Heq. rewrite Heq in Hri.
    destruct (root_in_fun _ _ _ _ Hri _ _ Hrj). lia. }
  assert (nodes ⊆+ seqZ 0 (Z.of_nat (length p))) as Hsub.
  { apply NoDup_submseteq; [done|]. intros z (i & -> & [_ Hi]%elem_of_seq)%list_elem_of_fmap.
    pose proof (root_in_ancestor _ _ _ _ H i ltac:(lia)) as Hri.
    apply root_in_range in Hri. apply elem_of_seqZ. lia. }
  apply submseteq_length in Hsub.
  unfold nodes in Hsub. rewrite length_fmap, length_seq, length_seqZ in Hsub. lia.
Qed.

Lemma root_spec d x r : root d x = Some r ↔ ∃ k, root_in (parent d) k x r.
Proof.
  unfold root. split.
  - intros (k & _ & H)%root_from_Some. by exists k.
  - intros [k H]. eapply root_from_in; [done|]. by eapply root_in_short.
Qed.

Lemma root_Some_range d x r : root d x = Some r → 0 ≤ x < size d ∧ 0 ≤ r < size d.
Proof.
  intros [k H]%root_spec. split; [by eapply root_in_range|].
  eapply root_in_range, root_in_root, H.
Qed.

Lemma root_of_root d x r : root d x = Some r → root d r = Some r.
Proof. intros [k H]%root_spec. apply root_spec. exists O. by eapply root_in_root. Qed.

Lemma root_self_iff d x : 0 ≤ x → root d x = Some x ↔ parent d !! Z.to_nat x = Some x.
Proof.
  intros Hx. rewrite root_spec. split.
  - intros [k H]. pose proof (root_in_self _ _ _ H) as ->. by inversion H.
  - intros Hl. exists O. by constructor.
Qed.

Lemma forest_spec d :
  forest d = true ↔
  length (rank_ d) = length (parent d) ∧ size d ≤ vector_max_size ∧
  ∀ x, 0 ≤ x < size d → ∃ r, root d x = Some r.
Proof.
  unfold forest. rewrite !andb_true_iff, Nat.eqb_eq, Z.leb_le, forallb_forall.
  split; [intros [[Hlen Hmax] Hall]; do 2 (split; [done|])
         |intros (Hlen & Hmax & Hall); split; [done|]].
  - intros x Hx. specialize (Hall x). rewrite <- list_elem_of_In, elem_of_seqZ in Hall.
    specialize (Hall ltac:(lia)). destruct (root d x) as [r|]; [by exists r|done].
  - intros x. rewrite <- list_elem_of_In, elem_of_seqZ. intros Hx.
    destruct (Hall x ltac:(lia)) as [r ->]. done.
Qed.

(** Every parent entry of a forest is a valid index. *)
Lemma forest_parent_valid d i y :
  forest d = true → parent d !! i = Some y → 0 ≤ y < size d.
Proof.
  intros (_ & _ & Hall)%forest_spec Hl.
  pose proof (lookup_lt_Some _ _ _ Hl) as Hi.
  destruct (Hall (Z.of_nat i)) as [r [k H]%root_spec]; [unfold size; lia|].
  inversion H; subst; rewrite Nat2Z.id in *; simplify_eq.
  - unfold size. lia.
  - by eapply root_in_range.
Qed.

(** *** Path compression *)

Lemma redirect_length p zs r : length (redirect p zs r) = length p.
Proof. induction zs as [|z zs IH]; simpl; [done|]. by rewrite length_insert. Qed.

Lemma path_nodes_stable p k x r :
  root_in p k x r → ∀ fuel, (k ≤ fuel)%nat → path_nodes fuel p x = path_nodes k p x.
Proof.
  induction 1 as [x Hx Hl|k x y r Hx Hl Hne Hy IH]; intros [|fuel] Hfuel; simpl; try (done || lia).
  - by rewrite Hl, Z.eqb_refl.
  - rewrite Hl. destruct (Z.eqb_spec y x); [done|]. f_equal. apply IH. lia.
Qed.

Lemma path_nodes_roots p k x r :
  root_in p k x r → ∀ z, z ∈ path_nodes k p x → ∃ kz, root_in p (S kz) z r.
Proof.
  induction 1 as [x Hx Hl|k x y r Hx Hl Hne Hy IH]; intros z; simpl.
  - by intros ?%elem_of_nil.
  - rewrite Hl. destruct (Z.eqb_spec y x); [done|].
    intros [->|Hz]%elem_of_cons; [|by apply IH].
    exists k. by econstructor.
Qed.

Lemma redirect_one p kz z r :
  root_in p kz z r →
  ∀ k w rw, root_in p k w rw → ∃ k', root_in (<[Z.to_nat z := r]> p) k' w rw.
Proof.
  intros Hz. pose proof (root_in_range _ _ _ _ Hz) as Hzr.
  induction 1 as [w Hw Hl|k w y rw Hw Hl Hne Hy [k' IH]].
  - exists O. constructor; [done|]. destruct (Z.eq_dec w z) as [->|Hnz].
    + assert (root_in p O z z) as H0 by by constructor.
      destruct (root_in_fun _ _ _ _ Hz _ _ H0) as [_ ->].
      apply list_lookup_insert_eq. lia.
    + rewrite list_lookup_insert_ne by lia. done.
  - destruct (Z.eq_dec w z) as [->|Hnz].
    + assert (root_in p (S k) z rw) as H1 by by econstructor.
      destruct (root_in_fun _ _ _ _ Hz _ _ H1) as [-> ->].
      assert (rw ≠ z) as Hrz.
      { intros ->. by apply root_in_self in H1. }
      pose proof (root_in_root _ _ _ _ Hz) as Hr. inversion Hr; subst.
      exists 1%nat. econstructor; [done| |done|].
      * apply list_lookup_insert_eq. lia.
      * constructor; [done|]. rewrite list_lookup_insert_ne by lia. done.
    + exists (S k'). econstructor; [done| |done|done].
      rewrite list_lookup_insert_ne by lia. done.
Qed.

Lemma redirect_all p zs r :
  (∀ z, z ∈ zs → ∃ kz, root_in p kz z r) →
  ∀ k w rw, root_in p k w rw → ∃ k', root_in (redirect p zs r) k' w rw.
Proof.
  induction zs as [|z zs IH]; intros Hzs k w rw Hw; simpl; [by exists k|].
  destruct (Hzs z) as [kz Hz]; [by left|].
  assert (∀ z', z' ∈ zs → ∃ kz, root_in p kz z' r) as Hzs' by (intros ??; apply Hzs; by right).
  destruct (IH Hzs' _ _ _ Hz) as [kz' Hz'].
  destruct (IH Hzs' _ _ _ Hw) as [kw' Hw'].
  by eapply redirect_one.
Qed.

(** A state of the same sizes whose paths lead to the roots renamed by [f]
    is again a forest. *)
Lemma roots_intro d d' (f : Z → Z) :
  forest d = true →
  length (parent d') = length (parent d) →
  length (rank_ d') = length (rank_ d) →
  (∀ k w rw, root_in (parent d) k w rw → ∃ k', root_in (parent d') k' w (f rw)) →
  forest d' = true ∧ size d' = size d ∧ ∀ x, root d' x = f <$> root d x.
Proof.
  intros (Hlen & Hmax & Hall)%forest_spec Hp Hr Hfw.
  assert (size d' = size d) as Hsz by (unfold size; lia).
  assert (∀ x, root d' x = f <$> root d x) as Hroots.
  { intros x. destruct (root d x) as [r|] eqn:Hx; simpl.
    - apply root_spec in Hx as [k Hk]. apply root_spec. by eapply Hfw.
    - destruct (root d' x) as [r'|] eqn:Hx'; [|done].
      apply root_Some_range in Hx' as [Hx' _].
      destruct (Hall x) as [r Hr']; [lia|]. congruence. }
  split; [|done]. apply forest_spec. split; [lia|]. split; [lia|].
  intros x Hx. rewrite Hroots. destruct (Hall x) as [r ->]; [lia|]. by eexists.
Qed.

Lemma same_roots_intro d d' :
  forest d = true →
  length (parent d') = length (parent d) →
  length (rank_ d') = length (rank_ d) →
  (∀ k w rw, root_in (parent d) k w rw → ∃ k', root_in (parent d') k' w rw) →
  forest d' = true ∧ same_roots d d'.
Proof.
  intros Hf Hp Hr Hfw.
  destruct (roots_intro d d' id Hf Hp Hr Hfw) as (Hf' & Hsz & Hroots).
  split; [done|]. split; [done|]. intros x. by rewrite Hroots, option_fmap_id.
Qed.

Lemma same_roots_refl d : same_roots d d.
Proof. done. Qed.

Lemma same_roots_trans d1 d2 d3 : same_roots d1 d2 → same_roots d2 d3 → same_roots d1 d3.
Proof. intros [H1 H2] [H3 H4]. split; [lia|]. intros x. by rewrite H4, H2. Qed.

(** *** find *)

Lemma find_rec_invalid fuel d x :
  x < 0 ∨ size d ≤ x → find_rec (S fuel) d x = Done (-1, d).
Proof. intros Hx. simpl. zcmp; (lia || done). Qed.

Lemma find_rec_spec d k x r :
  root_in (parent d) k x r →
  ∀ fuel, (k < fuel)%nat →
    find_rec fuel d x =
    Done (r, mkDSU (redirect (parent d) (path_nodes k (parent d) x) r) (rank_ d)).
Proof.
  induction 1 as [x Hx Hl|k x y r Hx Hl Hne Hy IH]; intros [|fuel] Hfuel; try lia.
  - pose proof (lookup_lt_Some _ _ _ Hl). simpl.
    destruct ((x <? 0) || (x >=? size d)) eqn:E; [unfold size in E; zcmp; lia|].
    rewrite (vec_get_Some _ _ _ Hx Hl). simpl. rewrite Z.eqb_refl. simpl.
    rewrite (vec_get_Some _ _ _ Hx Hl). simpl. by destruct d.
  - pose proof (lookup_lt_Some _ _ _ Hl).
    cbn [find_rec path_nodes]. rewrite Hl.
    destruct ((x <? 0) || (x >=? size d)) eqn:E; [unfold size in E; zcmp; lia|].
    rewrite (vec_get_Some _ _ _ Hx Hl). simpl.
    destruct (Z.eqb_spec y x); [done|]. simpl.
    rewrite IH by lia. simpl.
    rewrite vec_set_in by (rewrite redirect_length; lia). simpl.
    rewrite (vec_get_Some _ x r); [done|done|].
    apply list_lookup_insert_eq. rewrite redirect_length. lia.
Qed.

Lemma find_invalid d x : x < 0 ∨ size d ≤ x → find d x = Done (-1, d).
Proof. apply find_rec_invalid. Qed.

Lemma find_valid d x r :
  root d x = Some r →
  find d x = Done (r, mkDSU (redirect (parent d) (path d x) r) (rank_ d)).
Proof.
  intros [k H]%root_spec. pose proof (root_in_short _ _ _ _ H) as Hk.
  unfold find, path. rewrite (path_nodes_stable _ _ _ _ H) by lia.
  apply find_rec_spec; [done|lia].
Qed.

Lemma compress_forest d x r :
  forest d = true → root d x = Some r →
  let d' := mkDSU (redirect (parent d) (path d x) r) (rank_ d) in
  forest d' = true ∧ same_roots d d'.
Proof.
  intros Hf [k H]%root_spec d'. pose proof (root_in_short _ _ _ _ H) as Hk.
  apply same_roots_intro; [done|apply redirect_length|done|].
  simpl. apply redirect_all. intros z Hz. unfold path in Hz.
  rewrite (path_nodes_stable _ _ _ _ H) in Hz by lia.
  destruct (path_nodes_roots _ _ _ _ H z Hz) as [kz Hkz]. by exists (S kz).
Qed.

Lemma root_None d x : forest d = true → root d x = None ↔ x < 0 ∨ size d ≤ x.
Proof.
  intros (_ & _ & Hall)%forest_spec. split.
  - intros Hn. destruct (Z.lt_ge_cases x 0); [by left|].
    destruct (Z.lt_ge_cases x (size d)); [|by right].
    destruct (Hall x) as [r Hr]; [lia|]. congruence.
  - intros Hx. destruct (root d x) as [r|] eqn:Hr; [|done].
    apply root_Some_range in Hr. lia.
Qed.

(** [find] on a forest: the result, and what it leaves behind. *)
Lemma find_total d x :
  forest d = true →
  ∃ d', find d x = Done (default (-1) (root d x), d') ∧
    forest d' = true ∧ same_roots d d' ∧ rank_ d' = rank_ d.
Proof.
  intros Hf. destruct (root d x) as [r|] eqn:Hr.
  - eexists. split; [by apply find_valid|].
    destruct (compress_forest d x r Hf Hr) as [Hf' Hs]. done.
  - apply root_None in Hr; [|done]. exists d. by rewrite find_invalid.
Qed.

(** *** unite *)

Lemma link_roots p px py :
  px ≠ py → root_in p O px px → root_in p O py py →
  ∀ k w rw, root_in p k w rw →
    ∃ k', root_in (<[Z.to_nat py := px]> p) k' w (if decide (rw = py) then px else rw).
Proof.
  intros Hne Hpx Hpy. pose proof (root_in_range _ _ _ _ Hpy) as Hr.
  inversion Hpx; inversion Hpy; subst.
  induction 1 as [w Hw Hl|k w y rw Hw Hl Hnw Hy [k' IH]].
  - case_decide as Hd.
    + subst w. exists 1%nat. econstructor; [done| |done|].
      * apply list_lookup_insert_eq. lia.
      * constructor; [done|]. rewrite list_lookup_insert_ne by lia. done.
    + exists O. constructor; [done|]. rewrite list_lookup_insert_ne by lia. done.
  - exists (S k'). econstructor; [done| |done|done].
    rewrite list_lookup_insert_ne; [done|].
    intros Heq. assert (w = py) as -> by lia. congruence.
Qed.

Lemma unite_spec d x y :
  forest d = true →
  ∃ d1 d2,
    find d x = Done (default (-1) (root d x), d1) ∧
    find d1 y = Done (default (-1) (root d y), d2) ∧
    forest d2 = true ∧ same_roots d d2 ∧ rank_ d2 = rank_ d ∧
    match root d x, root d y with
    | Some rx, Some ry =>
        if rx =? ry then unite d x y = Done (false, d2)
        else ∃ kx ky,
          rank_ d !! Z.to_nat rx = Some kx ∧ rank_ d !! Z.to_nat ry = Some ky ∧
          unite d x y = Done (true, link d2 rx ry kx ky)
    | _, _ => unite d x y = Done (false, d2)
    end.
Proof.
  intros Hf.
  destruct (find_total d x Hf) as (d1 & Hfx & Hf1 & Hs1 & Hr1).
  destruct (find_total d1 y Hf1) as (d2 & Hfy & Hf2 & Hs2 & Hr2).
  exists d1, d2. split; [done|].
  pose proof Hs1 as [Hsz1 Hroot1]. rewrite Hroot1 in Hfy. split; [done|].
  split; [done|]. split; [by eapply same_roots_trans|].
  split; [congruence|].
  unfold unite. rewrite Hfx. simpl. rewrite Hfy. simpl.
  destruct (root d x) as [rx|] eqn:Hx; simpl;
    [|by destruct (root d y)].
  destruct (root d y) as [ry|] eqn:Hy; simpl;
    [|destruct (rx <? 0); done].
  apply root_Some_range in Hx as [_ Hrx]. apply root_Some_range in Hy as [_ Hry].
  apply forest_spec in Hf as (Hlen & _ & _).
  destruct Hs2 as [Hsz2 _]. unfold size in *.
  destruct (Z.ltb_spec rx 0); [lia|]. destruct (Z.ltb_spec ry 0); [lia|]. simpl.
  destruct (Z.eqb_spec rx ry) as [Heq|Hne]; [done|].
  destruct (lookup_lt_is_Some_2 (rank_ d) (Z.to_nat rx)) as [kx Hkx]; [lia|].
  destruct (lookup_lt_is_Some_2 (rank_ d) (Z.to_nat ry)) as [ky Hky]; [lia|].
  exists kx, ky. split; [done|]. split; [done|].
  rewrite Hr2, Hr1.
  rewrite (vec_get_Some _ rx kx), (vec_get_Some _ ry ky) by (lia || done). simpl.
  unfold link. destruct (Z.ltb_spec kx ky) as [Hlt|Hge].
  - rewrite vec_set_in by lia. simpl.
    rewrite (vec_get_Some _ rx kx), (vec_get_Some _ ry ky) by (lia || done). simpl.
    destruct (Z.eqb_spec ky kx); [lia|]. destruct (Z.eqb_spec kx ky); [lia|].
    simpl. by rewrite Hr2, Hr1.
  - rewrite vec_set_in by lia. simpl.
    rewrite (vec_get_Some _ rx kx), (vec_get_Some _ ry ky) by (lia || done). simpl.
    destruct (Z.eqb_spec kx ky) as [Hk|Hk]; simpl.
    + rewrite vec_set_in by lia. simpl. by rewrite Hr2, Hr1.
    + by rewrite Hr2, Hr1.
Qed.

(** The state after a link: a forest in which the nodes of the losing root
    now have the winning root. *)
Lemma link_forest d rx ry kx ky :
  forest d = true → root d rx = Some rx → root d ry = Some ry → rx ≠ ry →
  let win := if kx <? ky then ry else rx in
  let lose := if kx <? ky then rx else ry in
  forest (link d rx ry kx ky) = true ∧
  size (link d rx ry kx ky) = size d ∧
  ∀ w, root (link d rx ry kx ky) w =
       (λ r, if decide (r = lose) then win else r) <$> root d w.
Proof.
  intros Hf Hx Hy Hne win lose.
  assert (root d win = Some win ∧ root d lose = Some lose ∧ win ≠ lose)
    as (Hwin & Hlose & Hwl) by (unfold win, lose; destruct (kx <? ky); done).
  assert (link d rx ry kx ky =
          mkDSU (<[Z.to_nat lose := win]> (parent d))
                (if kx =? ky then <[Z.to_nat rx := add64 kx 1]> (rank_ d) else rank_ d))
    as -> by (unfold link, win, lose; by destruct (kx <? ky)).
  apply root_Some_range in Hwin as Hwr. apply root_Some_range in Hlose as Hlr.
  apply root_self_iff in Hwin; [|lia]. apply root_self_iff in Hlose; [|lia].
  apply roots_intro; simpl.
  - done.
  - apply length_insert.
  - destruct (kx =? ky); [apply length_insert|done].
  - apply link_roots; [done|constructor; (lia || done)..].
Qed.

(** *** connected *)

Lemma connected_spec d x y :
  forest d = true →
  ∃ d2, connected d x y = Done (same_set d x y, d2) ∧
    forest d2 = true ∧ same_roots d d2 ∧ rank_ d2 = rank_ d.
Proof.
  intros Hf.
  destruct (find_total d x Hf) as (d1 & Hfx & Hf1 & Hs1 & Hr1).
  destruct (find_total d1 y Hf1) as (d2 & Hfy & Hf2 & Hs2 & Hr2).
  exists d2. split; [|split; [done|split; [by eapply same_roots_trans|congruence]]].
  destruct Hs1 as [Hsz1 Hroot1]. rewrite Hroot1 in Hfy.
  unfold connected, same_set. rewrite Hfx. simpl. rewrite Hfy. simpl.
  destruct (root d x) as [rx|] eqn:Hx; simpl; [|done].
  destruct (root d y) as [ry|] eqn:Hy; simpl.
  - apply root_Some_range in Hx as [_ Hrx]. apply root_Some_range in Hy as [_ Hry].
    do 2 f_equal. zcmp; (lia || done).
  - do 2 f_equal. by rewrite andb_false_r.
Qed.

(** *** components *)

Lemma filter_ext_in (P1 P2 : Z → Prop)
    `{!∀ x, Decision (P1 x), !∀ x, Decision (P2 x)} (l : list Z) :
  (∀ x, x ∈ l → P1 x ↔ P2 x) → filter P1 l = filter P2 l.
Proof.
  induction l as [|a l IH]; intros Hiff; [done|].
  rewrite !filter_cons. rewrite IH by (intros ??; apply Hiff; by right).
  destruct (decide (P1 a)) as [H1|H1], (decide (P2 a)) as [H2|H2]; try done;
    exfalso; apply (Hiff a) in H1 || apply (Hiff a) in H2; (done || by left).
Qed.

Lemma count_from_same_roots d d' i :
  same_roots d d' → count_from d' i = count_from d i.
Proof.
  intros [Hsz Hroots]. unfold count_from. rewrite Hsz. do 2 f_equal.
  apply list_filter_iff. intros x. by rewrite Hroots.
Qed.

Lemma count_roots_from d : count_roots d = count_from d 0.
Proof.
  unfold count_roots, count_from. rewrite Z.sub_0_r. do 2 f_equal.
  apply filter_ext_in. intros x [Hx _]%elem_of_seqZ. by rewrite root_self_iff.
Qed.

Lemma count_from_step d i :
  0 ≤ i < size d →
  count_from d i = (if decide (root d i = Some i) then 1 else 0) + count_from d (i + 1).
Proof.
  intros Hi. unfold count_from. rewrite (seqZ_cons i) by lia.
  replace (Z.pred (size d - i)) with (size d - (i + 1)) by lia.
  replace (Z.succ i) with (i + 1) by lia.
  rewrite filter_cons. case_decide; simpl; lia.
Qed.

Lemma count_from_end d i : size d ≤ i → count_from d i = 0.
Proof. intros Hi. unfold count_from. by rewrite seqZ_nil by lia. Qed.

Lemma count_from_bound d i : 0 ≤ i ≤ size d → 0 ≤ count_from d i ≤ size d - i.
Proof.
  intros Hi. unfold count_from.
  pose proof (length_filter (λ x, root d x = Some x) (seqZ i (size d - i))) as Hle.
  rewrite length_seqZ in Hle. lia.
Qed.

Lemma components_loop_spec fuel : ∀ d i c,
  forest d = true → 0 ≤ i ≤ size d → 0 ≤ c ≤ i → (Z.to_nat (size d - i) < fuel)%nat →
  ∃ d', components_loop fuel d i c = Done (c + count_from d i, d') ∧
    forest d' = true ∧ same_roots d d' ∧ rank_ d' = rank_ d.
Proof.
  induction fuel as [|fuel IH]; intros d i c Hf Hi Hc Hfuel; [lia|].
  simpl. destruct (Z.ltb_spec i (size d)) as [Hlt|Hge].
  - destruct (find_total d i Hf) as (d1 & Hfi & Hf1 & Hs1 & Hr1).
    rewrite Hfi. simpl.
    pose proof Hf as (_ & Hmax & Hall)%forest_spec.
    destruct (Hall i) as [r Hr]; [lia|]. rewrite Hr. simpl.
    pose proof Hs1 as [Hsz1 _].
    destruct (IH d1 (i + 1) (if r =? i then add64 c 1 else c)) as (d' & Hrun & Hf' & Hs' & Hr').
    { done. }
    { lia. }
    { rewrite add64_id by (i64_bounds; lia). destruct (r =? i); lia. }
    { lia. }
    exists d'. split; [|split; [done|split; [by eapply same_roots_trans|congruence]]].
    rewrite Hrun. do 2 f_equal.
    rewrite (count_from_same_roots d d1) by done.
    rewrite (count_from_step d i) by lia. rewrite Hr.
    rewrite add64_id by (i64_bounds; lia).
    destruct (Z.eqb_spec r i) as [->|Hne]; case_decide; simplify_eq; lia.
  - exists d. rewrite count_from_end by lia. rewrite Z.add_0_r. done.
Qed.

Lemma components_spec d :
  forest d = true →
  ∃ d', components d = Done (count_roots d, d') ∧
    forest d' = true ∧ same_roots d d' ∧ rank_ d' = rank_ d.
Proof.
  intros Hf. destruct (components_loop_spec (S (length (parent d))) d 0 0 Hf)
    as (d' & Hrun & Hrest); [unfold size; lia..|].
  exists d'. split; [|done]. unfold components. by rewrite Hrun, count_roots_from.
Qed.

Lemma count_roots_same_roots d d' : same_roots d d' → count_roots d' = count_roots d.
Proof. intros Hs. rewrite !count_roots_from. by apply count_from_same_roots. Qed.

(** *** Counting roots across a link *)

Lemma filter_remove_one (P : Z → Prop) `{!∀ x, Decision (P x)} (l : list Z) x :
  NoDup l → x ∈ l → P x →
  length (filter P l) = S (length (filter (λ w, P w ∧ w ≠ x) l)).
Proof.
  induction l as [|a l IH]; intros Hnd Hin HP; [by apply elem_of_nil in Hin|].
  apply list.NoDup_cons in Hnd as [Ha Hnd]. rewrite !filter_cons.
  destruct (Z.eq_dec a x) as [->|Hne].
  - destruct (decide (P x)); [|done].
    destruct (decide (P x ∧ x ≠ x)) as [[_ ?]|_]; [done|]. simpl. f_equal. f_equal.
    apply filter_ext_in. intros w Hw. split; [|by intros [? _]].
    intros HPw. split; [done|]. by intros ->.
  - apply elem_of_cons in Hin as [->|Hin]; [done|].
    specialize (IH Hnd Hin HP).
    destruct (decide (P a)), (decide (P a ∧ a ≠ x)) as [[??]|Hn]; simpl;
      rewrite ?IH; try done.
    exfalso. by apply Hn.
Qed.

Lemma link_count d rx ry kx ky :
  forest d = true → root d rx = Some rx → root d ry = Some ry → rx ≠ ry →
  count_roots (link d rx ry kx ky) = count_roots d - 1.
Proof.
  intros Hf Hx Hy Hne.
  destruct (link_forest d rx ry kx ky Hf Hx Hy Hne) as (_ & Hsz & Hroots).
  set (win := if kx <? ky then ry else rx) in *.
  set (lose := if kx <? ky then rx else ry) in *.
  assert (root d win = Some win ∧ root d lose = Some lose ∧ win ≠ lose)
    as (Hwin & Hlose & Hwl) by (unfold win, lose; destruct (kx <? ky); done).
  rewrite !count_roots_from. unfold count_from. rewrite Hsz, Z.sub_0_r.
  rewrite (filter_remove_one (λ x, root d x = Some x) _ lose).
  - rewrite Nat2Z.inj_succ.
    rewrite (filter_ext_in (λ x, root (link d rx ry kx ky) x = Some x)
                           (λ w, root d w = Some w ∧ w ≠ lose)); [lia|].
    intros w _. rewrite Hroots. split.
    + intros (r & Hr & Hw)%fmap_Some. case_decide as Hd.
      * exfalso. rewrite Hw, Hwin in Hr. congruence.
      * split; congruence.
    + intros [Hw Hnl]. rewrite Hw. simpl. by case_decide.
  - apply NoDup_seqZ.
  - apply root_Some_range in Hlose. apply elem_of_seqZ. lia.
  - done.
Qed.

(** *** What compression writes *)

Lemma redirect_lookup_in p zs r z :
  z ∈ zs → 0 ≤ z < Z.of_nat (length p) → redirect p zs r !! Z.to_nat z = Some r.
Proof.
  induction zs as [|a zs IH]; intros Hin Hz; [by apply elem_of_nil in Hin|]. simpl.
  destruct (Z.eq_dec a z) as [->|Hne].
  - apply list_lookup_insert_eq. rewrite redirect_length. lia.
  - apply elem_of_cons in Hin as [->|Hin]; [done|].
    destruct (decide (Z.to_nat a = Z.to_nat z)) as [Heq|Hneq].
    + rewrite Heq. apply list_lookup_insert_eq. rewrite redirect_length. lia.
    + rewrite list_lookup_insert_ne by done. by apply IH.
Qed.

Lemma redirect_lookup_out p zs r z :
  z ∉ zs → 0 ≤ z → (∀ a, a ∈ zs → 0 ≤ a) →
  redirect p zs r !! Z.to_nat z = p !! Z.to_nat z.
Proof.
  induction zs as [|a zs IH]; intros Hin Hz Hzs; [done|]. simpl.
  apply not_elem_of_cons in Hin as [Hne Hin].
  assert (0 ≤ a) by (apply Hzs; by left).
  rewrite list_lookup_insert_ne by lia.
  apply IH; [done|done|]. intros b Hb. apply Hzs. by right.
Qed.

Lemma path_in_range d x r z :
  root d x = Some r → z ∈ path d x → 0 ≤ z < size d ∧ root d z = Some r ∧ z ≠ r.
Proof.
  intros [k H]%root_spec Hz. pose proof (root_in_short _ _ _ _ H) as Hk.
  unfold path in Hz. rewrite (path_nodes_stable _ _ _ _ H) in Hz by lia.
  destruct (path_nodes_roots _ _ _ _ H z Hz) as [kz Hkz].
  split; [by eapply root_in_range|]. split; [apply root_spec; by eexists|].
  intros ->. by apply root_in_self in Hkz.
Qed.

(** *** Construction *)

Lemma new_forest n :
  0 ≤ n ≤ vector_max_size →
  new n = Done (mkDSU (seqZ 0 n) (replicate (Z.to_nat n) 0)) ∧
  forest (mkDSU (seqZ 0 n) (replicate (Z.to_nat n) 0)) = true.
Proof.
  intros Hn. split; [unfold new; zcmp; (lia || done)|].
  apply forest_spec. unfold size. simpl. rewrite length_replicate, length_seqZ.
  split; [done|]. split; [lia|]. intros x Hx. exists x.
  apply root_spec. exists O. constructor; [lia|]. simpl.
  rewrite lookup_seqZ_lt by lia. f_equal. lia.
Qed.

Lemma same_roots_same_set d d' x y : same_roots d d' → same_set d' x y = same_set d x y.
Proof. intros [_ Hroots]. unfold same_set. by rewrite !Hroots. Qed.

Lemma same_set_false_roots d x y :
  forest d = true → 0 ≤ x < size d → 0 ≤ y < size d → same_set d x y = false →
  ∃ rx ry, root d x = Some rx ∧ root d y = Some ry ∧ rx ≠ ry.
Proof.
  intros (_ & _ & Hall)%forest_spec Hx Hy. unfold same_set.
  destruct (Hall x Hx) as [rx ->]. destruct (Hall y Hy) as [ry ->].
  intros Hne. exists rx, ry. do 2 (split; [done|]). by destruct (Z.eqb_spec rx ry).
Qed.

End DsuFacts.

(** * The specification's claims *)

Module FenwickSpec.
Import I64Facts Fenwick FenwickFacts.

(** C1. For every [FenwickTree(n)] with [n >= 1] (one that can be
    allocated) and every sequence of [update(i, delta)] calls with
    [0 <= i < n]: the calls all return, and afterwards, for all
    [0 <= l <= r < n], [rangequery(l, r)] is the sum of the deltas applied
    at positions of [[l, r]] and [query(i)] is that sum over [[0, i]]. The
    sum is the one a brute-force loop with an [i64] accumulator computes:
    the integer sum reduced to 64 bits, hence the integer sum itself
    whenever that fits [i64]. *)
Theorem fenwick_rangequery_is_delta_sum size us :
  1 ≤ size → size + 1 ≤ vector_max_size →
  Forall (λ u, 0 ≤ u.1 < size) us →
  ∃ t0 t,
    new size = Done t0 ∧ updates t0 us = Done t ∧
    (∀ i, 0 ≤ i < size →
       query t i = Done (brute_force_sum us 0 i) ∧
       brute_force_sum us 0 i = wrap64 (delta_sum us 0 i) ∧
       (in_i64 (delta_sum us 0 i) → query t i = Done (delta_sum us 0 i))) ∧
    (∀ l r, 0 ≤ l ≤ r → r < size →
       rangequery t l r = Done (brute_force_sum us l r) ∧
       brute_force_sum us l r = wrap64 (delta_sum us l r) ∧
       (in_i64 (delta_sum us l r) → rangequery t l r = Done (delta_sum us l r))).
Proof.
  intros Hsize Hmax Hus.
  destruct (new_spec size ltac:(lia)) as [Hnew Hrep0].
  destruct (updates_spec us _ [] Hrep0) as (t & Hrun & Hrep & Hn); [done|].
  simpl in Hrep, Hn. eexists _, t. split; [done|]. split; [done|].
  assert (∀ i, 0 ≤ i < size → query t i = Done (wrap64 (delta_sum us 0 i))) as Hq.
  { intros i Hi. rewrite (query_spec_all t us) by done. do 3 f_equal. lia. }
  assert (∀ l r, 0 ≤ l ≤ r → r < size →
            rangequery t l r = Done (wrap64 (delta_sum us l r))) as Hr.
  { intros l r Hl Hr. rewrite (rangequery_spec t us) by done. do 3 f_equal; lia. }
  split.
  - intros i Hi. rewrite brute_force_sum_spec. split; [by apply Hq|]. split; [done|].
    intros Hfit. by rewrite Hq, wrap64_id.
  - intros l r Hl Hlt. rewrite brute_force_sum_spec. split; [by apply Hr|]. split; [done|].
    intros Hfit. by rewrite Hr, wrap64_id.
Qed.

Lemma fenwick_rangequery_is_delta_sum_witness :
  ∃ t0 t,
    new 10 = Done t0 ∧ updates t0 [(3, 5); (5, 10); (7, 3)] = Done t ∧
    query t 7 = Done 18 ∧ rangequery t 3 5 = Done 15.
Proof.
  destruct (fenwick_rangequery_is_delta_sum 10 [(3, 5); (5, 10); (7, 3)])
    as (t0 & t & Hnew & Hrun & Hq & Hr).
  - lia.
  - unfold vector_max_size. lia.
  - repeat constructor; simpl; lia.
  - exists t0, t. split; [exact Hnew|]. split; [exact Hrun|]. split.
    + exact (proj1 (Hq 7 ltac:(lia))).
    + exact (proj1 (Hr 3 5 ltac:(lia) ltac:(lia))).
Defined.

(** C6. The out-of-range policy of a tree with [n] positions: [update] at a
    position outside [[0, n)] returns the tree as it is; [query(i)] is 0 for
    [i < 0] and is [query(n - 1)] for [i >= n]; [rangequery(l, r)] is 0 when
    [l > r] or the range lies outside [[0, n)], and is
    [query(r) - query(l - 1)] otherwise. *)
Theorem fenwick_out_of_range_policy t :
  wf t →
  (∀ i delta, i < 0 ∨ n t ≤ i → update t i delta = Done t) ∧
  (∀ i, i < 0 → query t i = Done 0) ∧
  (∀ i, n t ≤ i → query t i = query t (n t - 1)) ∧
  (∀ l r, l > r ∨ r < 0 ∨ n t ≤ l → rangequery t l r = Done 0) ∧
  (∀ l r, l ≤ r → 0 ≤ r → l < n t →
     rangequery t l r = (qr ← query t r; ql ← query t (l - 1); Done (sub64 qr ql))).
Proof.
  intros Hwf. split; [|split; [|split; [|split]]].
  - intros i delta Hi. by apply update_out_of_range.
  - intros i Hi. by apply query_negative.
  - intros i Hi. pose proof Hwf as [Hn Hlen].
    destruct (Z.lt_ge_cases i 0) as [Hneg|Hnn].
    + rewrite !query_negative by lia. done.
    + destruct (Z.lt_ge_cases (n t - 1) 0) as [Hlt|Hge].
      * rewrite (query_negative t (n t - 1)) by lia.
        unfold query. destruct (Z.ltb_spec i 0); [lia|].
        rewrite wf_clamp by done. unfold loop_fuel. simpl. zcmp; (lia || done).
      * unfold query. destruct (Z.ltb_spec i 0); [lia|].
        destruct (Z.ltb_spec (n t - 1) 0); [lia|].
        rewrite !wf_clamp by (done || lia). do 2 f_equal. lia.
  - intros l r H. by apply rangequery_empty.
  - intros l r Hlr Hr Hl. by apply rangequery_unfold.
Qed.

Lemma fenwick_out_of_range_policy_witness :
  let t := mkFenwick (replicate 11 0) 10 in
  update t (-1) 5 = Done t ∧ update t 100 5 = Done t ∧
  query t (-1) = Done 0 ∧ query t 100 = query t 9 ∧
  rangequery t 7 3 = Done 0.
Proof.
  intros t.
  assert (wf t) as Hwf by (split; [unfold vector_max_size; simpl; lia|reflexivity]).
  destruct (fenwick_out_of_range_policy t Hwf) as (Hu & Hq0 & Hqn & Hr0 & _).
  split; [apply Hu; simpl; lia|]. split; [apply Hu; simpl; lia|].
  split; [apply Hq0; lia|]. split; [apply (Hqn 100); simpl; lia|].
  apply Hr0. lia.
Defined.

(** C10. For every [FenwickTree(n)] with [n >= 0] and every sequence of
    [update], [query] and [rangequery] calls: every call returns (no access
    falls outside the vector of [n + 1] cells), the calls are carried out by
    reading and writing the cells listed by [run_accesses] only, and each of
    these has an index in [[1, n]]. On [FenwickTree(0)] every query and
    range query returns 0 and every update leaves the tree as it is. *)
Theorem fenwick_accesses_in_bounds size cs :
  0 ≤ size → size + 1 ≤ vector_max_size →
  ∃ t0 t vs,
    new size = Done t0 ∧ Z.of_nat (length (tree t0)) = size + 1 ∧
    run t0 cs = Done (t, vs) ∧
    run_cells t0 cs = Done (t, vs) ∧
    (∀ j, j ∈ run_accesses t0 cs → 1 ≤ j ≤ size) ∧
    (size = 0 → t = t0 ∧ Forall (λ v, v = 0) vs).
Proof.
  intros Hsize Hmax.
  destruct (new_spec size ltac:(lia)) as [Hnew Hrep0].
  destruct (run_spec cs _ [] Hrep0) as (t & vs & us & Hrun & Hrep & Hn & Hacc & Hzero).
  eexists _, t, vs. split; [done|]. split; [apply Hrep0|]. split; [done|].
  split; [by apply run_cells_eq|]. by split.
Qed.

Lemma fenwick_accesses_in_bounds_witness :
  ∃ t0 t vs,
    new 4 = Done t0 ∧ Z.of_nat (length (tree t0)) = 4 + 1 ∧
    run t0 [CallUpdate 1 5; CallUpdate 9 1; CallQuery 7; CallRangequery (-2) 2] = Done (t, vs) ∧
    run_cells t0 [CallUpdate 1 5; CallUpdate 9 1; CallQuery 7; CallRangequery (-2) 2] = Done (t, vs) ∧
    (∀ j, j ∈ run_accesses t0 [CallUpdate 1 5; CallUpdate 9 1; CallQuery 7; CallRangequery (-2) 2] →
          1 ≤ j ≤ 4) ∧
    (4 = 0 → t = t0 ∧ Forall (λ v, v = 0) vs).
Proof.
  apply (fenwick_accesses_in_bounds 4); [lia|unfold vector_max_size; lia].
Defined.

End FenwickSpec.

Module DsuSpec.
Import I64Facts Dsu DsuFacts.

(** C2, as it stands, fails: a [unite] that returns false has still run
    [find] on its arguments, and [find] compresses paths. On the state
    reached by [DSU(4); unite(0,1); unite(2,3); unite(0,2)], both
    [unite(3, -1)] (an invalid index) and [unite(3, 0)] (same set) return
    false and leave [parent[3]] rewritten from 2 to 0. *)
Lemma unite_false_rewrites_parent :
  let d := mkDSU [0; 0; 0; 2] [2; 0; 1; 0] in
  let d' := mkDSU [0; 0; 0; 0] [2; 0; 1; 0] in
  (d0 ← new 4; '(_, d1) ← unite d0 0 1; '(_, d2) ← unite d1 2 3;
   '(_, d3) ← unite d2 0 2; Done d3) = Done d ∧
  forest d = true ∧
  unite d 3 (-1) = Done (false, d') ∧
  unite d 3 0 = Done (false, d') ∧
  d' ≠ d.
Proof. repeat split; try (vm_compute; reflexivity). discriminate. Qed.

(** C2, amended. On every state that satisfies the invariant, [unite(x, y)]
    returns. If [x] or [y] is outside [[0, n)] or both are in the same set,
    it returns false and the state it leaves is [d2], the state after its
    two [find] calls, which has the sets, the representatives and the ranks
    of the state before; only parent entries on the two paths may have been
    compressed. Otherwise it returns true: the root of lower rank has been
    attached under the root of higher rank; with equal ranks [root(y)] has
    been attached under [root(x)] and the rank of [root(x)] incremented;
    and [connected(x, y)] is true afterwards. *)
Theorem unite_links_roots d x y :
  forest d = true →
  ∃ b d' px py d1 d2,
    unite d x y = Done (b, d') ∧ forest d' = true ∧
    find d x = Done (px, d1) ∧ find d1 y = Done (py, d2) ∧
    same_roots d d2 ∧ rank_ d2 = rank_ d ∧
    (x < 0 ∨ size d ≤ x ∨ y < 0 ∨ size d ≤ y ∨ same_set d x y = true →
       b = false ∧ d' = d2) ∧
    (0 ≤ x < size d → 0 ≤ y < size d → same_set d x y = false →
       b = true ∧
       ∃ rx ry kx ky,
         root d x = Some rx ∧ root d y = Some ry ∧
         rank_ d !! Z.to_nat rx = Some kx ∧ rank_ d !! Z.to_nat ry = Some ky ∧
         (kx < ky →
            parent d' = <[Z.to_nat rx := ry]> (parent d2) ∧ rank_ d' = rank_ d) ∧
         (ky < kx →
            parent d' = <[Z.to_nat ry := rx]> (parent d2) ∧ rank_ d' = rank_ d) ∧
         (kx = ky →
            parent d' = <[Z.to_nat ry := rx]> (parent d2) ∧
            rank_ d' = <[Z.to_nat rx := add64 kx 1]> (rank_ d)) ∧
         ∃ d3, connected d' x y = Done (true, d3)).
Proof.
  intros Hf.
  destruct (unite_spec d x y Hf) as (d1 & d2 & Hfx & Hfy & Hf2 & Hs2 & Hr2 & Hu).
  pose proof Hf as (_ & _ & Hall)%forest_spec.
  destruct (root d x) as [rx|] eqn:Hx; [destruct (root d y) as [ry|] eqn:Hy|].
  - destruct (Z.eqb_spec rx ry) as [->|Hne].
    + eexists false, d2, _, _, d1, d2. do 6 (split; [done|]). split; [done|].
      intros _ _ Hss. unfold same_set in Hss. rewrite Hx, Hy, Z.eqb_refl in Hss. done.
    + destruct Hu as (kx & ky & Hkx & Hky & Hu).
      pose proof Hs2 as [Hsz2 Hroots2].
      assert (root d2 rx = Some rx) as Hrx by (rewrite Hroots2; by eapply root_of_root).
      assert (root d2 ry = Some ry) as Hry by (rewrite Hroots2; by eapply root_of_root).
      destruct (link_forest d2 rx ry kx ky Hf2 Hrx Hry Hne) as (Hf' & Hsz' & Hroots').
      eexists true, (link d2 rx ry kx ky), _, _, d1, d2. do 6 (split; [done|]). split.
      * intros [Hc|[Hc|[Hc|[Hc|Hc]]]];
          try (apply root_Some_range in Hx; apply root_Some_range in Hy; lia).
        unfold same_set in Hc. rewrite Hx, Hy in Hc. by destruct (Z.eqb_spec rx ry).
      * intros _ _ _. split; [done|]. exists rx, ry, kx, ky. do 4 (split; [done|]).
        split; [|split; [|split]].
        -- intros Hlt. unfold link. rewrite Hr2. destruct (Z.ltb_spec kx ky); [|lia].
           destruct (Z.eqb_spec kx ky); [lia|]. done.
        -- intros Hlt. unfold link. rewrite Hr2. destruct (Z.ltb_spec kx ky); [lia|].
           destruct (Z.eqb_spec kx ky); [lia|]. done.
        -- intros Heq. unfold link. rewrite Hr2. destruct (Z.ltb_spec kx ky); [lia|].
           destruct (Z.eqb_spec kx ky); [|lia]. done.
        -- destruct (connected_spec (link d2 rx ry kx ky) x y Hf') as (d3 & Hc & _).
           exists d3. rewrite Hc. do 2 f_equal.
           unfold same_set. rewrite !Hroots', !Hroots2, Hx, Hy. simpl.
           destruct (kx <? ky); repeat case_decide; simplify_eq; apply Z.eqb_refl.
  - eexists false, d2, _, _, d1, d2. do 6 (split; [done|]). split; [done|].
    intros _ Hyr. destruct (Hall y Hyr) as [ry Hry]. congruence.
  - eexists false, d2, _, _, d1, d2. do 6 (split; [done|]). split; [done|].
    intros Hxr. destruct (Hall x Hxr) as [rx Hrx]. congruence.
Qed.

Lemma unite_links_roots_witness :
  let d := mkDSU [0; 0; 2; 2; 4] [1; 0; 1; 0; 0] in
  forest d = true ∧
  ∃ b d' px py d1 d2,
    unite d 1 3 = Done (b, d') ∧ forest d' = true ∧
    find d 1 = Done (px, d1) ∧ find d1 3 = Done (py, d2) ∧
    same_roots d d2 ∧ rank_ d2 = rank_ d ∧
    (1 < 0 ∨ size d ≤ 1 ∨ 3 < 0 ∨ size d ≤ 3 ∨ same_set d 1 3 = true →
       b = false ∧ d' = d2) ∧
    (0 ≤ 1 < size d → 0 ≤ 3 < size d → same_set d 1 3 = false →
       b = true ∧
       ∃ rx ry kx ky,
         root d 1 = Some rx ∧ root d 3 = Some ry ∧
         rank_ d !! Z.to_nat rx = Some kx ∧ rank_ d !! Z.to_nat ry = Some ky ∧
         (kx < ky →
            parent d' = <[Z.to_nat rx := ry]> (parent d2) ∧ rank_ d' = rank_ d) ∧
         (ky < kx →
            parent d' = <[Z.to_nat ry := rx]> (parent d2) ∧ rank_ d' = rank_ d) ∧
         (kx = ky →
            parent d' = <[Z.to_nat ry := rx]> (parent d2) ∧
            rank_ d' = <[Z.to_nat rx := add64 kx 1]> (rank_ d)) ∧
         ∃ d3, connected d' 1 3 = Done (true, d3)).
Proof.
  intros d. split; [reflexivity|]. apply (unite_links_roots d 1 3). reflexivity.
Defined.

(** C5. On every state that satisfies the invariant: [find(x)] returns -1
    (and changes nothing) if [x] is outside [[0, n)]; otherwise it returns
    the root [r] of [x]'s tree, and afterwards every node visited on the way
    from [x] has [r] as its parent while every other entry is as before.
    [connected(x, y)] returns true iff [x] and [y] are both in [[0, n)] and
    [find(x) == find(y)]. In particular [find(-1) == -1],
    [unite(-1, 0) == false] and [connected(-1, 0) == false]. *)
Theorem find_compresses_connected_compares d :
  forest d = true →
  (∀ x, x < 0 ∨ size d ≤ x → find d x = Done (-1, d)) ∧
  (∀ x, 0 ≤ x < size d →
     ∃ r d', root d x = Some r ∧ find d x = Done (r, d') ∧
       rank_ d' = rank_ d ∧ length (parent d') = length (parent d) ∧
       parent d' !! Z.to_nat r = Some r ∧
       (∀ z, z ∈ path d x → parent d' !! Z.to_nat z = Some r) ∧
       (∀ z, 0 ≤ z → z ∉ path d x → parent d' !! Z.to_nat z = parent d !! Z.to_nat z)) ∧
  (∀ x y, ∃ px py d1 d2 d3 b,
     find d x = Done (px, d1) ∧ find d1 y = Done (py, d2) ∧ find d y = Done (py, d3) ∧
     connected d x y = Done (b, d2) ∧
     (b = true ↔ 0 ≤ x < size d ∧ 0 ≤ y < size d ∧ px = py)) ∧
  find d (-1) = Done (-1, d) ∧
  (∃ d', unite d (-1) 0 = Done (false, d')) ∧
  (∃ d', connected d (-1) 0 = Done (false, d')).
Proof.
  intros Hf. pose proof Hf as (_ & _ & Hall)%forest_spec.
  assert (root d (-1) = None) as Hm1 by (apply root_None; [done|lia]).
  split; [|split; [|split; [|split; [|split]]]].
  - intros x Hx. by apply find_invalid.
  - intros x Hx. destruct (Hall x Hx) as [r Hr].
    eexists r, _. split; [done|]. split; [by apply find_valid|]. simpl.
    split; [done|]. split; [apply redirect_length|].
    assert (∀ a, a ∈ path d x → 0 ≤ a) as Hnn.
    { intros a Ha. destruct (path_in_range d x r a Hr Ha) as [? _]. lia. }
    pose proof (root_Some_range _ _ _ Hr) as [_ Hrr].
    split; [|split].
    + assert (r ∉ path d x) as Hnin.
      { intros Hin. by destruct (path_in_range d x r r Hr Hin) as (_ & _ & ?). }
      rewrite redirect_lookup_out by (done || lia).
      apply root_self_iff; [lia|]. by eapply root_of_root.
    + intros z Hz. apply redirect_lookup_in; [done|].
      destruct (path_in_range d x r z Hr Hz) as [Hzr _]. unfold size in Hzr. lia.
    + intros z Hz Hnin. by apply redirect_lookup_out.
  - intros x y.
    destruct (find_total d x Hf) as (d1 & Hfx & Hf1 & Hs1 & Hr1).
    destruct (find_total d1 y Hf1) as (d2 & Hfy & Hf2 & Hs2 & Hr2).
    destruct (find_total d y Hf) as (d3 & Hfy' & _).
    destruct Hs1 as [Hsz1 Hroot1]. rewrite Hroot1 in Hfy.
    eexists _, _, d1, d2, d3, _. split; [done|]. split; [done|]. split; [done|].
    split; [unfold connected; rewrite Hfx; simpl; rewrite Hfy; done|].
    destruct (root d x) as [rx|] eqn:Hx; destruct (root d y) as [ry|] eqn:Hy; simpl.
    + apply root_Some_range in Hx. apply root_Some_range in Hy.
      zcmp; split; (lia || done || intros; repeat split; (lia || done)).
    + apply root_None in Hy; [|done]. apply root_Some_range in Hx.
      rewrite andb_false_r. simpl. split; [done|lia].
    + apply root_None in Hx; [|done]. split; [done|lia].
    + apply root_None in Hx; [|done]. split; [done|lia].
  - apply find_invalid. lia.
  - destruct (unite_spec d (-1) 0 Hf) as (d1 & d2 & _ & _ & _ & _ & _ & Hu).
    rewrite Hm1 in Hu. by exists d2.
  - destruct (connected_spec d (-1) 0 Hf) as (d2 & Hc & _).
    exists d2. rewrite Hc. unfold same_set. by rewrite Hm1.
Qed.

Lemma find_compresses_connected_compares_witness :
  let d := mkDSU [0; 0; 0; 2; 4] [2; 0; 1; 0; 0] in
  forest d = true ∧
  find d 3 = Done (0, mkDSU [0; 0; 0; 0; 4] [2; 0; 1; 0; 0]) ∧
  path d 3 = [3; 2] ∧
  find d (-1) = Done (-1, d) ∧
  (∃ d', unite d (-1) 0 = Done (false, d')) ∧
  (∃ d', connected d (-1) 0 = Done (false, d')).
Proof.
  intros d. split; [reflexivity|].
  destruct (find_compresses_connected_compares d) as (_ & _ & _ & Hm & Hu & Hc);
    [reflexivity|].
  split; [reflexivity|]. split; [reflexivity|]. split; [exact Hm|]. split; [exact Hu|exact Hc].
Defined.

(** C8. On a state that satisfies the invariant every parent entry is a
    valid index and every node leads to a root [r] with [parent[r] == r];
    every operation ([find], [unite], [connected], [components]) returns and
    leaves a state that satisfies the invariant again; [find], [connected]
    and [components] leave every node with the root it had, so the sets are
    the same; and [components()] called twice in a row returns the same
    count. *)
Theorem dsu_operations_preserve_forest d :
  forest d = true →
  (∀ i y, parent d !! i = Some y → 0 ≤ y < size d) ∧
  (∀ x, 0 ≤ x < size d →
     ∃ r, root d x = Some r ∧ 0 ≤ r < size d ∧ parent d !! Z.to_nat r = Some r) ∧
  (∀ c, ∃ d', step d c = Done d' ∧ forest d' = true ∧
     (is_query c = true →
        same_roots d d' ∧ ∀ x y, same_set d' x y = same_set d x y)) ∧
  (∃ k d1 d2, components d = Done (k, d1) ∧ components d1 = Done (k, d2)).
Proof.
  intros Hf. pose proof Hf as (_ & _ & Hall)%forest_spec.
  split; [|split; [|split]].
  - intros i y. by apply forest_parent_valid.
  - intros x Hx. destruct (Hall x Hx) as [r Hr]. exists r. split; [done|].
    pose proof (root_Some_range _ _ _ Hr) as [_ Hrr]. split; [done|].
    apply root_self_iff; [lia|]. by eapply root_of_root.
  - intros [x|x y|x y|]; simpl.
    + destruct (find_total d x Hf) as (d' & -> & Hf' & Hs & _). exists d'.
      split; [done|]. split; [done|]. intros _. split; [done|].
      intros ??. by apply same_roots_same_set.
    + destruct (unite_spec d x y Hf) as (d1 & d2 & Hfx & Hfy & Hf2 & Hs2 & Hr2 & Hu).
      destruct (root d x) as [rx|] eqn:Hx; [destruct (root d y) as [ry|] eqn:Hy|].
      * destruct (Z.eqb_spec rx ry) as [->|Hne]; [rewrite Hu; by exists d2|].
        destruct Hu as (kx & ky & _ & _ & ->). simpl. eexists. split; [done|].
        pose proof Hs2 as [_ Hroots2]. split; [|done].
        apply link_forest; [done| | |done]; rewrite Hroots2; by eapply root_of_root.
      * rewrite Hu. by exists d2.
      * rewrite Hu. by exists d2.
    + destruct (connected_spec d x y Hf) as (d' & -> & Hf' & Hs & _). exists d'.
      split; [done|]. split; [done|]. intros _. split; [done|].
      intros ??. by apply same_roots_same_set.
    + destruct (components_spec d Hf) as (d' & -> & Hf' & Hs & _). exists d'.
      split; [done|]. split; [done|]. intros _. split; [done|].
      intros ??. by apply same_roots_same_set.
  - destruct (components_spec d Hf) as (d1 & Hc1 & Hf1 & Hs1 & _).
    destruct (components_spec d1 Hf1) as (d2 & Hc2 & _).
    exists (count_roots d), d1, d2. split; [done|].
    by rewrite Hc2, (count_roots_same_roots d d1).
Qed.

Lemma dsu_operations_preserve_forest_witness :
  let d := mkDSU [0; 0; 0; 2; 4] [2; 0; 1; 0; 0] in
  forest d = true ∧
  (∀ c, ∃ d', step d c = Done d' ∧ forest d' = true ∧
     (is_query c = true →
        same_roots d d' ∧ ∀ x y, same_set d' x y = same_set d x y)) ∧
  (∃ k d1 d2, components d = Done (k, d1) ∧ components d1 = Done (k, d2)).
Proof.
  intros d. split; [reflexivity|].
  destruct (dsu_operations_preserve_forest d) as (_ & _ & Hstep & Hcomp); [reflexivity|].
  split; [exact Hstep|exact Hcomp].
Defined.

(** C9. On every state that satisfies the invariant: if [unite(x, y)]
    returns true, [components()] afterwards is one less than [components()]
    before; if it returns false, [components()] is the same. *)
Theorem unite_changes_components d x y :
  forest d = true →
  ∃ b d' k k' d1 d2,
    unite d x y = Done (b, d') ∧
    components d = Done (k, d1) ∧ components d' = Done (k', d2) ∧
    k' = (if b then k - 1 else k).
Proof.
  intros Hf.
  destruct (components_spec d Hf) as (dc & Hc & _).
  destruct (unite_spec d x y Hf) as (d1 & d2 & Hfx & Hfy & Hf2 & Hs2 & Hr2 & Hu).
  assert (∃ d3, components d2 = Done (count_roots d, d3)) as [d3 Hc2].
  { destruct (components_spec d2 Hf2) as (d3 & Hc2 & _). exists d3.
    by rewrite Hc2, (count_roots_same_roots d d2). }
  destruct (root d x) as [rx|] eqn:Hx; [destruct (root d y) as [ry|] eqn:Hy|].
  - destruct (Z.eqb_spec rx ry) as [->|Hne];
      [by exists false, d2, (count_roots d), (count_roots d), dc, d3|].
    destruct Hu as (kx & ky & _ & _ & Hu).
    pose proof Hs2 as [_ Hroots2].
    assert (root d2 rx = Some rx) as Hrx by (rewrite Hroots2; by eapply root_of_root).
    assert (root d2 ry = Some ry) as Hry by (rewrite Hroots2; by eapply root_of_root).
    destruct (link_forest d2 rx ry kx ky Hf2 Hrx Hry Hne) as (Hf' & _).
    destruct (components_spec _ Hf') as (d4 & Hc4 & _).
    exists true, (link d2 rx ry kx ky), (count_roots d), (count_roots d - 1), dc, d4.
    split; [done|]. split; [done|]. split; [|done].
    by rewrite Hc4, link_count, (count_roots_same_roots d d2).
  - by exists false, d2, (count_roots d), (count_roots d), dc, d3.
  - by exists false, d2, (count_roots d), (count_roots d), dc, d3.
Qed.

Lemma unite_changes_components_witness :
  let d := mkDSU [0; 0; 2; 2; 4] [1; 0; 1; 0; 0] in
  forest d = true ∧
  ∃ b d' k k' d1 d2,
    unite d 1 3 = Done (b, d') ∧
    components d = Done (k, d1) ∧ components d' = Done (k', d2) ∧
    k' = (if b then k - 1 else k).
Proof.
  intros d. split; [reflexivity|]. apply (unite_changes_components d 1 3). reflexivity.
Defined.

End DsuSpec.

Module SafeSpec.
Import Safe.

(** C3. On an empty Option, [map(f)] and [then(f)] return an empty Option
    without invoking [f] (whatever effect [f] has, none of it happens, and a
    counting [f] leaves its count as it was); on an empty Option,
    [otherwise(f)] is exactly one invocation of [f] and returns its result
    (a counting [f] ends with its count one higher); on an Option holding
    [v], [then(f)] is [f(v)] itself, not wrapped again. *)
Theorem option_combinators_lazy {W T U : Type} :
  (∀ (f : T → eff W U), map None f = eff_ret None) ∧
  (∀ (f : T → eff W (Option U)), then_ None f = eff_ret None) ∧
  (∀ (f : T → eff W U) calls w,
     map None (counted f) (calls, w) = Done (None, (calls, w))) ∧
  (∀ (f : T → eff W (Option U)) calls w,
     then_ None (counted f) (calls, w) = Done (None, (calls, w))) ∧
  (∀ (f : unit → eff W T), otherwise None f = f tt) ∧
  (∀ (f : unit → eff W T) calls w,
     otherwise None (counted f) (calls, w) =
     match f tt w with
     | Done (v, w') => Done (v, (S calls, w'))
     | OutOfBounds => OutOfBounds
     | OutOfFuel => OutOfFuel
     | Throws => Throws
     | Panicked s => Panicked s
     end) ∧
  (∀ (v : T) (f : T → eff W (Option U)), then_ (Some v) f = f v).
Proof. repeat split. Qed.

(** C4, as it stands, fails on the diagnostic: [unwrap()] on an empty Option
    panics with the message "called unwrap() on None Option", not with
    "unwrap on empty". *)
Lemma unwrap_none_diagnostic :
  @unwrap unit Z None tt = Panicked "[DAXE PANIC]: called unwrap() on None Option" ∧
  @unwrap unit Z None tt ≠ @panic unit Z "unwrap on empty" tt ∧
  @unwrap unit Z None tt ≠ Panicked "unwrap on empty".
Proof. repeat split; discriminate. Qed.

(** C4, amended. [unwrap()] on a present Option returns the contained
    value; on an empty Option it panics with the diagnostic
    "called unwrap() on None Option" (written to the error stream after the
    prefix "[DAXE PANIC]: ", before the process terminates) and does not
    return. Likewise [Result::unwrap()] on Err panics with
    "called unwrap() on Err Result" and [Result::error()] on Ok panics with
    "called error() on Ok Result", neither returns, and on the other side
    each returns the payload. *)
Theorem unwrap_returns_or_panics {W T E : Type} :
  (∀ (v : T) (w : W), unwrap (Some v) w = Done (v, w)) ∧
  (∀ w : W, @unwrap W T None w =
            Panicked "[DAXE PANIC]: called unwrap() on None Option") ∧
  (∀ (w : W) res, @unwrap W T None w ≠ Done res) ∧
  (∀ (v : T) (w : W), @result_unwrap W T E (Ok v) w = Done (v, w)) ∧
  (∀ (e : E) (w : W), @result_unwrap W T E (Err e) w =
                      Panicked "[DAXE PANIC]: called unwrap() on Err Result") ∧
  (∀ (e : E) (w : W) res, @result_unwrap W T E (Err e) w ≠ Done res) ∧
  (∀ (e : E) (w : W), @result_error W T E (Err e) w = Done (e, w)) ∧
  (∀ (v : T) (w : W), @result_error W T E (Ok v) w =
                      Panicked "[DAXE PANIC]: called error() on Ok Result") ∧
  (∀ (v : T) (w : W) res, @result_error W T E (Ok v) w ≠ Done res).
Proof. repeat split; discriminate. Qed.

(** C7. [Ok(v).map(f)] is [Ok(f(v))]; [Err(e).map(f)] is [Err(e)] and [f]
    is not invoked; [Err(e).then(f)] is [Err(e)], again without invoking
    [f]; [Err(e).otherwise(f)] is [f(e)]; [Ok(v).otherwise(f)] is [v] and
    [f] is not invoked. *)
Theorem result_combinators {W T U E : Type} :
  (∀ (v : T) (f : T → eff W U),
     result_map (E:=E) (Ok v) f = eff_bind (f v) (λ u, eff_ret (Ok u))) ∧
  (∀ (v : T) (f : T → U),
     result_map (W:=W) (E:=E) (Ok v) (λ x, eff_ret (f x)) = eff_ret (Ok (f v))) ∧
  (∀ (e : E) (f : T → eff W U), result_map (Err e) f = eff_ret (Err e)) ∧
  (∀ (e : E) (f : T → eff W U) calls w,
     result_map (Err e) (counted f) (calls, w) = Done (Err e, (calls, w))) ∧
  (∀ (e : E) (f : T → eff W (Result U E)), result_then (Err e) f = eff_ret (Err e)) ∧
  (∀ (e : E) (f : T → eff W (Result U E)) calls w,
     result_then (Err e) (counted f) (calls, w) = Done (Err e, (calls, w))) ∧
  (∀ (e : E) (f : E → eff W T), result_otherwise (Err e) f = f e) ∧
  (∀ (v : T) (f : E → eff W T), result_otherwise (Ok v) f = eff_ret v) ∧
  (∀ (v : T) (f : E → eff W T) calls w,
     result_otherwise (Ok v) (counted f) (calls, w) = Done (v, (calls, w))).
Proof. repeat split. Qed.

(** [Some(5).then([](x){ return Some(x * 2); }).unwrap() == 10] *)
Example option_round_trip :
  eff_bind (then_ (Some 5) (λ x, eff_ret (Some (x * 2)))) unwrap tt = Done (10, tt).
Proof. reflexivity. Qed.

(** A counting callable: invoked once by [otherwise] on an empty Option,
    never by [map]. *)
Example otherwise_invokes_once :
  otherwise None (counted (λ _ : unit, eff_ret 7)) (O, tt) = Done (7, (1%nat, tt)) ∧
  map (None : Option Z) (counted (λ x, eff_ret (x + 1))) (O, tt) = Done (None, (O, tt)).
Proof. split; reflexivity. Qed.

End SafeSpec.

(** * Further properties of the code *)

(** ** Fenwick tree: all arguments, order of updates, cost *)

Module FenwickMore.
Import I64Facts Fenwick FenwickFacts.

(** An update outside [[0, n)] contributes to no cell. *)
Lemma represents_skip t us i delta :
  represents t us → i < 0 ∨ n t ≤ i → represents t (us ++ [(i, delta)]).
Proof.
  intros [Hwf Hcells] Hi. split; [done|]. intros j Hj.
  rewrite Hcells by done. do 2 f_equal. rewrite delta_sum_snoc. simpl.
  destruct Hwf as [Hn _].
  assert (1 ≤ lowbit j ≤ j) by (apply lowbit_bounds; i64_bounds; lia).
  zcmp; lia.
Qed.

Lemma updates_any us : ∀ t h,
  represents t h →
  ∃ t', updates t us = Done t' ∧ represents t' (h ++ us) ∧ n t' = n t.
Proof.
  induction us as [|[i d] us IH]; intros t h Hrep; simpl.
  - exists t. by rewrite app_nil_r.
  - assert (∃ t1, update t i d = Done t1 ∧ represents t1 (h ++ [(i, d)]) ∧ n t1 = n t)
      as (t1 & -> & Hrep1 & Hn1).
    { destruct (Z.lt_ge_cases i 0); [|destruct (Z.lt_ge_cases i (n t))].
      1, 3: exists t; rewrite update_out_of_range by lia;
            split; [done|]; split; [apply represents_skip; (done || lia)|done].
      apply update_spec; [done|lia]. }
    simpl. destruct (IH t1 _ Hrep1) as (t' & Hrun & Hrep' & Hn').
    exists t'. rewrite <- app_assoc in Hrep'. split; [done|]. split; [done|]. lia.
Qed.

(** For every tree that can be allocated, every sequence of updates (at
    valid positions or not) and all arguments [l], [r]: the updates return,
    [rangequery(l, r)] is the brute-force sum of the applied deltas over the
    part of [[l, r]] that lies in [[0, n)], and [query(r)] is that sum over
    [[0, min(r, n - 1)]]. Updates at invalid positions count for nothing. *)
Theorem fenwick_queries_clamp size us :
  0 ≤ size → size + 1 ≤ vector_max_size →
  ∃ t0 t,
    new size = Done t0 ∧ updates t0 us = Done t ∧
    ∀ l r,
      rangequery t l r = Done (brute_force_sum us (Z.max l 0) (Z.min r (size - 1))) ∧
      query t r = Done (brute_force_sum us 0 (Z.min r (size - 1))).
Proof.
  intros Hsize Hmax.
  destruct (new_spec size ltac:(lia)) as [Hnew Hrep0].
  destruct (updates_any us _ [] Hrep0) as (t & Hrun & Hrep & Hn).
  simpl in Hrep, Hn. eexists _, t. split; [done|]. split; [done|].
  intros l r. rewrite !brute_force_sum_spec, <- Hn.
  split; [by apply rangequery_spec|by apply query_spec_all].
Qed.

Lemma fenwick_queries_clamp_witness :
  ∃ t0 t,
    new 10 = Done t0 ∧
    updates t0 [(3, 5); (-1, 100); (5, 10); (10, 100); (7, 3)] = Done t ∧
    rangequery t (-4) 5 = Done 15 ∧ rangequery t 5 99 = Done 13 ∧
    query t 99 = Done 18.
Proof.
  destruct (fenwick_queries_clamp 10 [(3, 5); (-1, 100); (5, 10); (10, 100); (7, 3)])
    as (t0 & t & Hnew & Hrun & Hq); [lia|unfold vector_max_size; lia|].
  exists t0, t. split; [exact Hnew|]. split; [exact Hrun|].
  split; [exact (proj1 (Hq (-4) 5))|]. split; [exact (proj1 (Hq 5 99))|].
  exact (proj2 (Hq 0 99)).
Defined.

(** *** The order of the updates *)








(** *** How many cells a call touches *)

Lemma lowbit_prev i :
  0 < i ≤ max_i64 → 0 < i - lowbit i → 2 * lowbit i ≤ lowbit (i - lowbit i).
Proof.
  intros Hi Hpos.
  destruct (odd_part i) as (k & m & Hk & Hm & ->); [lia|].
  assert (0 < 2 ^ k) by (apply Z.pow_pos_nonneg; lia).
  rewrite lowbit_pow2_odd in Hpos |- * by (done || lia).
  replace (2 ^ k * (2 * m + 1) - 2 ^ k) with (2 ^ Z.succ k * m) in *
    by (rewrite Z.pow_succ_r by done; lia).
  assert (0 < m) by nia.
  rewrite lowbit_plain by (rewrite Z.pow_succ_r by done; nia).
  rewrite land_neg_pow2 by lia.
  destruct (odd_part m) as (k2 & m2 & Hk2 & Hm2 & ->); [lia|].
  rewrite land_neg_pow2, land_neg_odd by done.
  assert (0 < 2 ^ k2) by (apply Z.pow_pos_nonneg; lia).
  rewrite Z.pow_succ_r by done. nia.
Qed.

Lemma update_cells_doubling fuel n : ∀ i,
  0 < i → n + 1 ≤ vector_max_size → update_cells fuel n i ≠ [] →
  lowbit i * 2 ^ (Z.of_nat (length (update_cells fuel n i)) - 1) ≤ n.
Proof.
  induction fuel as [|fuel IH]; intros i Hi Hn; simpl; [done|].
  destruct (Z.leb_spec i n) as [Hle|]; [|done]. intros _.
  assert (1 ≤ lowbit i ≤ i) as Hlb by (apply lowbit_bounds; i64_bounds; lia).
  rewrite add64_id by (i64_bounds; lia).
  destruct (update_cells fuel n (i + lowbit i)) as [|j rest] eqn:Hrest.
  - simpl. lia.
  - specialize (IH (i + lowbit i) ltac:(lia) Hn). rewrite Hrest in IH.
    specialize (IH ltac:(done)).
    pose proof (lowbit_next i Hi ltac:(i64_bounds; lia)) as Hnext.
    cbn [length] in *.
    replace (Z.of_nat (S (S (length rest))) - 1) with (Z.succ (Z.of_nat (S (length rest)) - 1))
      by lia.
    rewrite Z.pow_succ_r by lia.
    assert (0 < 2 ^ (Z.of_nat (S (length rest)) - 1)) by (apply Z.pow_pos_nonneg; lia).
    nia.
Qed.

Lemma query_cells_doubling fuel : ∀ i,
  0 < i ≤ max_i64 → query_cells fuel i ≠ [] →
  lowbit i * 2 ^ (Z.of_nat (length (query_cells fuel i)) - 1) ≤ i.
Proof.
  induction fuel as [|fuel IH]; intros i Hi; simpl; [done|].
  rewrite Z.gtb_ltb. destruct (Z.ltb_spec 0 i) as [_|]; [|lia]. intros _.
  assert (1 ≤ lowbit i ≤ i) as Hlb by (apply lowbit_bounds; lia).
  rewrite sub64_id by (i64_bounds; lia).
  destruct (query_cells fuel (i - lowbit i)) as [|j rest] eqn:Hrest.
  - simpl. lia.
  - assert (0 < i - lowbit i) as Hpos.
    { destruct fuel; simpl in Hrest; [done|]. rewrite Z.gtb_ltb in Hrest.
      by destruct (Z.ltb_spec 0 (i - lowbit i)). }
    specialize (IH (i - lowbit i) ltac:(lia)). rewrite Hrest in IH.
    specialize (IH ltac:(done)).
    pose proof (lowbit_prev i Hi Hpos) as Hnext.
    cbn [length] in *.
    replace (Z.of_nat (S (S (length rest))) - 1) with (Z.succ (Z.of_nat (S (length rest)) - 1))
      by lia.
    rewrite Z.pow_succ_r by lia.
    assert (0 < 2 ^ (Z.of_nat (S (length rest)) - 1)) by (apply Z.pow_pos_nonneg; lia).
    nia.
Qed.

Lemma doubling_log (cells : list Z) low bound :
  1 ≤ low → 1 ≤ bound → cells ≠ [] →
  low * 2 ^ (Z.of_nat (length cells) - 1) ≤ bound →
  Z.of_nat (length cells) ≤ Z.log2 bound + 1.
Proof.
  intros Hlow Hbound Hne Hle.
  assert (0 < length cells)%nat by (destruct cells; [done|simpl; lia]).
  assert (0 < 2 ^ (Z.of_nat (length cells) - 1)) by (apply Z.pow_pos_nonneg; lia).
  assert (2 ^ (Z.of_nat (length cells) - 1) ≤ bound) as Hpow by nia.
  apply Z.log2_le_pow2 in Hpow; lia.
Qed.

(** An [update] writes, and a [query] reads, at most [log2(n) + 1] cells of
    the tree. *)
Theorem fenwick_logarithmic_cost t i :
  wf t → 1 ≤ n t →
  Z.of_nat (length (update_accesses t i)) ≤ Z.log2 (n t) + 1 ∧
  Z.of_nat (length (query_accesses t i)) ≤ Z.log2 (n t) + 1.
Proof.
  intros Hwf Hn1. pose proof Hwf as [Hn Hlen].
  pose proof (Z.log2_nonneg (n t)) as Hlog. split.
  - unfold update_accesses.
    destruct ((i <? 0) || (i >=? n t)) eqn:E; [simpl; lia|].
    assert (0 ≤ i < n t) by (zcmp; lia).
    rewrite add64_id by (i64_bounds; lia).
    destruct (update_cells (loop_fuel (n t)) (n t) (i + 1)) as [|j rest] eqn:Hcells;
      [simpl; lia|].
    pose proof (update_cells_doubling (loop_fuel (n t)) (n t) (i + 1) ltac:(lia) ltac:(lia))
      as Hd.
    rewrite Hcells in Hd. specialize (Hd ltac:(done)).
    assert (1 ≤ lowbit (i + 1) ≤ i + 1) by (apply lowbit_bounds; i64_bounds; lia).
    apply (doubling_log (j :: rest) (lowbit (i + 1)) (n t)); (done || lia).
  - unfold query_accesses. destruct (Z.ltb_spec i 0); [simpl; lia|].
    rewrite wf_clamp by done.
    remember (Z.min i (n t - 1) + 1) as start eqn:Hstart.
    destruct (query_cells (loop_fuel (n t)) start) as [|j rest] eqn:Hcells; [simpl; lia|].
    pose proof (query_cells_doubling (loop_fuel (n t)) start ltac:(i64_bounds; lia)) as Hd.
    rewrite Hcells in Hd. specialize (Hd ltac:(done)).
    assert (1 ≤ lowbit start ≤ start) by (apply lowbit_bounds; i64_bounds; lia).
    apply (doubling_log (j :: rest) (lowbit start) (n t)); (done || lia).
Qed.

Lemma fenwick_logarithmic_cost_witness :
  let t := mkFenwick (replicate 1001 0) 1000 in
  Z.of_nat (length (update_accesses t 0)) ≤ 10 ∧
  Z.of_nat (length (query_accesses t 998)) ≤ 10.
Proof.
  intros t.
  assert (wf t) as Hwf by (split; [unfold vector_max_size; simpl; lia|reflexivity]).
  destruct (fenwick_logarithmic_cost t 0 Hwf) as [Hu _]; [simpl; lia|].
  destruct (fenwick_logarithmic_cost t 998 Hwf) as [_ Hq]; [simpl; lia|].
  split; [exact Hu|exact Hq].
Defined.

End FenwickMore.

(** ** Union-find: repeated finds, fresh structures, merging *)

Module DsuMore.
Import I64Facts Dsu DsuFacts DsuRuns.

Lemma redirect_id p zs r :
  (∀ z, z ∈ zs → p !! Z.to_nat z = Some r) → redirect p zs r = p.
Proof.
  induction zs as [|z zs IH]; intros Hzs; simpl; [done|].
  rewrite IH by (intros ??; apply Hzs; by right).
  apply list_insert_id, Hzs. by left.
Qed.

Lemma path_nodes_child fuel p x r :
  p !! Z.to_nat x = Some r → p !! Z.to_nat r = Some r →
  ∀ z, z ∈ path_nodes fuel p x → z = x.
Proof.
  intros Hx Hr z. destruct fuel as [|fuel]; simpl; [by intros ?%elem_of_nil|].
  rewrite Hx. destruct (r =? x); [by intros ?%elem_of_nil|].
  intros [->|Hz]%elem_of_cons; [done|].
  destruct fuel; simpl in Hz; [by apply elem_of_nil in Hz|].
  rewrite Hr, Z.eqb_refl in Hz. by apply elem_of_nil in Hz.
Qed.

Lemma compressed_parent d x r :
  forest d = true → root d x = Some r →
  redirect (parent d) (path d x) r !! Z.to_nat x = Some r.
Proof.
  intros Hf Hr. pose proof (root_Some_range _ _ _ Hr) as [Hx Hrr].
  destruct (decide (x ∈ path d x)) as [Hin|Hnin].
  - apply redirect_lookup_in; [done|]. unfold size in Hx. lia.
  - rewrite redirect_lookup_out; [|done|lia|].
    + apply root_spec in Hr as [k Hk]. pose proof (root_in_short _ _ _ _ Hk) as Hlt.
      unfold path in Hnin. rewrite (path_nodes_stable _ _ _ _ Hk) in Hnin by lia.
      destruct Hk as [x Hx0 Hl|k x y r Hx0 Hl Hne Hy]; [done|].
      exfalso. apply Hnin. simpl. rewrite Hl.
      destruct (Z.eqb_spec y x); [done|]. by left.
    + intros a Ha. destruct (path_in_range d x r a Hr Ha) as [? _]. lia.
Qed.

(** [find] is stable: on a state that satisfies the invariant, a second
    [find(x)] returns what the first returned and writes nothing. *)
Theorem find_twice d x :
  forest d = true →
  ∃ r d', find d x = Done (r, d') ∧ find d' x = Done (r, d').
Proof.
  intros Hf. destruct (root d x) as [r|] eqn:Hr.
  - destruct (compress_forest d x r Hf Hr) as [Hf' [Hsz Hroots]].
    set (d' := mkDSU (redirect (parent d) (path d x) r) (rank_ d)) in *.
    exists r, d'. split; [by apply find_valid|].
    assert (root d' x = Some r) as Hr' by by rewrite Hroots.
    rewrite (find_valid d' x r Hr'). do 2 f_equal.
    assert (parent d' !! Z.to_nat x = Some r) as Hpx by by apply compressed_parent.
    assert (parent d' !! Z.to_nat r = Some r) as Hpr.
    { pose proof (root_Some_range _ _ _ Hr') as [_ ?].
      apply root_self_iff; [lia|]. by eapply root_of_root. }
    rewrite redirect_id; [by destruct d'|].
    intros z Hz. unfold path in Hz.
    by rewrite (path_nodes_child _ _ _ _ Hpx Hpr z Hz).
  - apply root_None in Hr; [|done]. exists (-1), d. by rewrite find_invalid.
Qed.

Lemma find_twice_witness :
  let d := mkDSU [0; 0; 1; 2; 4] [3; 2; 1; 0; 0] in
  forest d = true ∧
  ∃ r d', find d 3 = Done (r, d') ∧ find d' 3 = Done (r, d').
Proof.
  intros d. split; [reflexivity|]. apply (find_twice d 3). reflexivity.
Defined.

(** *** A fresh structure *)

Lemma fresh_find n x :
  0 ≤ x < n →
  find (mkDSU (seqZ 0 n) (replicate (Z.to_nat n) 0)) x =
  Done (x, mkDSU (seqZ 0 n) (replicate (Z.to_nat n) 0)).
Proof.
  intros Hx. unfold find. simpl.
  destruct ((x <? 0) || (x >=? size _)) eqn:E;
    [unfold size in E; simpl in E; rewrite length_seqZ in E; zcmp; lia|].
  assert (seqZ 0 n !! Z.to_nat x = Some x) as Hl
    by (rewrite lookup_seqZ_lt by lia; f_equal; lia).
  assert (0 ≤ x) as Hx0 by lia.
  rewrite (vec_get_Some _ _ _ Hx0 Hl). simpl. rewrite Z.eqb_refl. simpl.
  by rewrite (vec_get_Some _ _ _ Hx0 Hl).
Qed.

Lemma fresh_components_loop n fuel : ∀ i c,
  0 ≤ i ≤ n → 0 ≤ c ≤ i → n ≤ vector_max_size → (Z.to_nat (n - i) < fuel)%nat →
  components_loop fuel (mkDSU (seqZ 0 n) (replicate (Z.to_nat n) 0)) i c =
  Done (c + (n - i), mkDSU (seqZ 0 n) (replicate (Z.to_nat n) 0)).
Proof.
  induction fuel as [|fuel IH]; intros i c Hi Hc Hmax Hfuel; [lia|].
  simpl. unfold size. simpl. rewrite length_seqZ.
  destruct (Z.ltb_spec i (Z.of_nat (Z.to_nat n))).
  - rewrite fresh_find by lia. simpl. rewrite Z.eqb_refl.
    rewrite add64_id by (i64_bounds; lia). rewrite IH by lia. do 2 f_equal. lia.
  - do 2 f_equal. lia.
Qed.

(** In [DSU(n)] every element is alone: [find(x)] is [x], [connected(x, y)]
    holds only for [x == y], there are [n] components, and none of these
    calls changes the state. *)
Theorem fresh_dsu_is_discrete n :
  0 ≤ n ≤ vector_max_size →
  ∃ d, new n = Done d ∧ forest d = true ∧
    (∀ x, 0 ≤ x < n → find d x = Done (x, d)) ∧
    (∀ x y, 0 ≤ x < n → 0 ≤ y < n → connected d x y = Done (x =? y, d)) ∧
    components d = Done (n, d).
Proof.
  intros Hn. destruct (new_forest n Hn) as [Hnew Hf].
  eexists. split; [done|]. split; [done|]. split; [|split].
  - intros x Hx. by apply fresh_find.
  - intros x y Hx Hy. unfold connected. rewrite fresh_find by done. simpl.
    rewrite fresh_find by done. simpl. do 2 f_equal. zcmp; (lia || done).
  - unfold components. cbn [parent].
    rewrite fresh_components_loop by (rewrite ?length_seqZ; lia). do 2 f_equal. lia.
Qed.

Lemma fresh_dsu_is_discrete_witness :
  ∃ d, new 5 = Done d ∧ forest d = true ∧
    (∀ x, 0 ≤ x < 5 → find d x = Done (x, d)) ∧
    (∀ x y, 0 ≤ x < 5 → 0 ≤ y < 5 → connected d x y = Done (x =? y, d)) ∧
    components d = Done (5, d).
Proof. apply (fresh_dsu_is_discrete 5). unfold vector_max_size. lia. Defined.

(** *** What a unite merges *)

Lemma unite_roots d x y :
  forest d = true →
  ∃ b d', unite d x y = Done (b, d') ∧ forest d' = true ∧ size d' = size d ∧
    count_roots d' = count_roots d - (if b then 1 else 0) ∧
    match root d x, root d y with
    | Some rx, Some ry =>
        b = negb (rx =? ry) ∧
        ∃ win lose, (win = rx ∧ lose = ry ∨ win = ry ∧ lose = rx) ∧
          ∀ w, root d' w = (λ r, if decide (r = lose) then win else r) <$> root d w
    | _, _ => b = false ∧ ∀ w, root d' w = root d w
    end.
Proof.
  intros Hf.
  destruct (unite_spec d x y Hf) as (d1 & d2 & _ & _ & Hf2 & Hs2 & Hr2 & Hu).
  pose proof Hs2 as [Hsz2 Hroots2].
  pose proof (count_roots_same_roots d d2 Hs2) as Hcount.
  destruct (root d x) as [rx|] eqn:Hx; [destruct (root d y) as [ry|] eqn:Hy|].
  - destruct (Z.eqb_spec rx ry) as [->|Hne].
    + exists false, d2. do 3 (split; [done|]). split; [lia|]. split; [done|].
      exists ry, ry. split; [by left|]. intros w. rewrite Hroots2.
      destruct (root d w) as [r|]; simpl; [|done]. by case_decide; subst.
    + destruct Hu as (kx & ky & _ & _ & Hu).
      assert (root d2 rx = Some rx) as Hrx by (rewrite Hroots2; by eapply root_of_root).
      assert (root d2 ry = Some ry) as Hry by (rewrite Hroots2; by eapply root_of_root).
      destruct (link_forest d2 rx ry kx ky Hf2 Hrx Hry Hne) as (Hf' & Hsz' & Hroots').
      exists true, (link d2 rx ry kx ky). do 2 (split; [done|]). split; [lia|].
      split; [rewrite link_count by done; lia|]. split; [done|].
      exists (if kx <? ky then ry else rx), (if kx <? ky then rx else ry).
      split; [destruct (kx <? ky); [by right|by left]|].
      intros w. by rewrite Hroots', Hroots2.
  - exists false, d2. do 3 (split; [done|]). split; [lia|]. done.
  - exists false, d2. do 3 (split; [done|]). split; [lia|]. done.
Qed.

(** After [unite(x, y)], two elements are in the same set exactly if they
    were before, or one was with [x] and the other with [y]. *)
Theorem unite_merges_two_sets d x y :
  forest d = true →
  ∃ b d', unite d x y = Done (b, d') ∧
    ∀ a c, same_set d' a c =
           same_set d a c
           || (same_set d a x && same_set d c y)
           || (same_set d a y && same_set d c x).
Proof.
  intros Hf.
  destruct (unite_roots d x y Hf) as (b & d' & Hu & _ & _ & _ & Hroots).
  exists b, d'. split; [done|]. intros a c. unfold same_set.
  destruct (root d x) as [rx|] eqn:Hx; [destruct (root d y) as [ry|] eqn:Hy|].
  - destruct Hroots as (_ & win & lose & Hwl & Hroots). rewrite !Hroots.
    destruct (root d a) as [ra|]; destruct (root d c) as [rc|]; simpl;
      rewrite ?andb_false_r, ?orb_false_r; try done.
    destruct Hwl as [[-> ->]|[-> ->]]; repeat case_decide; subst;
      zcmp; try (done || lia).
  - destruct Hroots as [_ Hroots]. rewrite !Hroots.
    destruct (root d a) as [ra|]; destruct (root d c) as [rc|];
      destruct (root d y) as [ry|]; simpl;
      rewrite ?andb_false_r, ?orb_false_r; done.
  - destruct Hroots as [_ Hroots]. rewrite !Hroots.
    destruct (root d a) as [ra|]; destruct (root d c) as [rc|];
      destruct (root d y) as [ry|]; simpl;
      rewrite ?andb_false_r, ?orb_false_r; done.
Qed.

Lemma unite_merges_two_sets_witness :
  let d := mkDSU [0; 0; 2; 2; 4] [1; 0; 1; 0; 0] in
  forest d = true ∧
  ∃ b d', unite d 1 3 = Done (b, d') ∧
    ∀ a c, same_set d' a c =
           same_set d a c
           || (same_set d a 1 && same_set d c 3)
           || (same_set d a 3 && same_set d c 1).
Proof.
  intros d. split; [reflexivity|]. apply (unite_merges_two_sets d 1 3). reflexivity.
Defined.

(** *** Counting components along a sequence of unites *)

Lemma count_roots_positive d : forest d = true → 1 ≤ size d → 1 ≤ count_roots d.
Proof.
  intros Hf Hsz. pose proof Hf as (_ & _ & Hall)%forest_spec.
  destruct (Hall 0 ltac:(lia)) as [r Hr].
  pose proof (root_Some_range _ _ _ Hr) as [_ Hrr].
  apply root_of_root in Hr. rewrite count_roots_from. unfold count_from.
  assert (r ∈ filter (λ x, root d x = Some x) (seqZ 0 (size d - 0))) as Hin.
  { apply list_elem_of_filter. split; [done|]. apply elem_of_seqZ. lia. }
  destruct (filter _ _); [by apply elem_of_nil in Hin|]. simpl. lia.
Qed.

(** Every [unite] that returns true removes exactly one component: after a
    sequence of [unite] calls of which [k] return true, [components()] is
    its value before minus [k]; so in a structure that is not empty fewer
    unites succeed than there were components. *)
Theorem unites_count_components ps : ∀ d,
  forest d = true →
  ∃ k d' d1 d2,
    unites d ps = Done (k, d') ∧ forest d' = true ∧ 0 ≤ k ∧
    components d = Done (count_roots d, d1) ∧
    components d' = Done (count_roots d - k, d2) ∧
    (1 ≤ size d → k < count_roots d).
Proof.
  induction ps as [|[x y] ps IH]; intros d Hf.
  - destruct (components_spec d Hf) as (d1 & Hc & _).
    exists 0, d, d1, d1. split; [done|]. split; [done|]. split; [done|].
    split; [done|]. rewrite Z.sub_0_r. split; [done|].
    intros Hsz. pose proof (count_roots_positive d Hf Hsz). lia.
  - destruct (components_spec d Hf) as (dc & Hc & _).
    destruct (unite_roots d x y Hf) as (b & d1 & Hu & Hf1 & Hsz1 & Hcount & _).
    destruct (IH d1 Hf1) as (k & d' & _ & d2 & Hrun & Hf' & Hk & _ & Hc' & Hlt).
    exists ((if b then 1 else 0) + k), d', dc, d2. simpl. rewrite Hu. simpl.
    rewrite Hrun. simpl. split; [done|]. split; [done|].
    split; [destruct b; lia|]. split; [done|].
    split; [rewrite Hc'; do 2 f_equal; lia|].
    intros Hsz. specialize (Hlt ltac:(lia)). lia.
Qed.

Lemma unites_count_components_witness :
  let d := mkDSU [0; 1; 2; 3; 4] [0; 0; 0; 0; 0] in
  forest d = true ∧
  ∃ k d' d1 d2,
    unites d [(0, 1); (1, 0); (2, 9); (3, 4); (4, 0)] = Done (k, d') ∧
    forest d' = true ∧ 0 ≤ k ∧
    components d = Done (count_roots d, d1) ∧
    components d' = Done (count_roots d - k, d2) ∧
    (1 ≤ size d → k < count_roots d).
Proof.
  intros d. split; [reflexivity|].
  apply (unites_count_components [(0, 1); (1, 0); (2, 9); (3, 4); (4, 0)] d). reflexivity.
Defined.

(** *** Union by rank keeps the trees shallow *)

Lemma rk_below_root d :
  ranked d → ∀ k x r, root_in (parent d) k x r → rk d x + Z.of_nat k ≤ rk d r.
Proof.
  intros (_ & Hup & _). induction 1 as [x Hx Hl|k x y r Hx Hl Hne Hy IH]; [lia|].
  specialize (Hup x y Hx Hl Hne). lia.
Qed.

Lemma set_size_le d r : set_size d r ≤ Z.max 0 (size d).
Proof.
  unfold set_size.
  pose proof (length_filter (λ x, root d x = Some r) (seqZ 0 (size d))) as Hle.
  rewrite length_seqZ in Hle. lia.
Qed.

Lemma root_rank_small d r :
  forest d = true → ranked d → root d r = Some r → 0 ≤ rk d r < 60.
Proof.
  intros (_ & Hmax & _)%forest_spec (Hnn & _ & Hsz) Hr.
  split; [apply Hnn|]. specialize (Hsz r Hr). pose proof (set_size_le d r).
  destruct (Z.lt_ge_cases (rk d r) 60) as [|Hge]; [done|].
  pose proof (Z.pow_le_mono_r 2 60 (rk d r) ltac:(lia) Hge).
  i64_bounds. unfold size in *. lia.
Qed.

Lemma path_nodes_length p k x r : root_in p k x r → length (path_nodes k p x) = k.
Proof.
  induction 1 as [x Hx Hl|k x y r Hx Hl Hne Hy IH]; simpl; [done|].
  rewrite Hl. destruct (Z.eqb_spec y x); [done|]. simpl. by rewrite IH.
Qed.

(** In a ranked forest [find] follows at most [log2(n)] parent entries. *)
Lemma ranked_path_short d x :
  forest d = true → ranked d → 0 ≤ x < size d →
  Z.of_nat (length (path d x)) ≤ Z.log2 (size d).
Proof.
  intros Hf Hrk Hx. pose proof Hf as (_ & _ & Hall)%forest_spec.
  destruct (Hall x Hx) as [r Hr]. pose proof Hr as [k Hk]%root_spec.
  pose proof (root_in_short _ _ _ _ Hk) as Hlt.
  unfold path. rewrite (path_nodes_stable _ _ _ _ Hk) by lia.
  rewrite (path_nodes_length _ _ _ _ Hk).
  pose proof (rk_below_root d Hrk _ _ _ Hk) as Hbelow.
  destruct Hrk as (Hnn & _ & Hsz). specialize (Hnn x).
  specialize (Hsz r (root_of_root _ _ _ Hr)). pose proof (set_size_le d r).
  assert (2 ^ rk d r ≤ size d) as Hpow by lia.
  apply Z.log2_le_pow2 in Hpow; lia.
Qed.

Lemma set_size_same_roots d d' r : same_roots d d' → set_size d' r = set_size d r.
Proof.
  intros [Hsz Hroots]. unfold set_size. rewrite Hsz. do 2 f_equal.
  apply list_filter_iff. intros x. by rewrite Hroots.
Qed.

Lemma ranked_fresh n :
  0 ≤ n → ranked (mkDSU (seqZ 0 n) (replicate (Z.to_nat n) 0)).
Proof.
  intros Hn. split; [|split].
  - intros x. unfold rk. simpl.
    destruct (replicate (Z.to_nat n) 0 !! Z.to_nat x) as [v|] eqn:Hl; simpl; [|done].
    apply lookup_replicate in Hl as [-> _]. done.
  - simpl. intros x y Hx [Hy _]%lookup_seqZ Hne. lia.
  - intros r Hr. pose proof (root_Some_range _ _ _ Hr) as [Hrr _].
    unfold rk. simpl.
    assert (default 0 (replicate (Z.to_nat n) 0 !! Z.to_nat r) = 0) as ->.
    { destruct (replicate (Z.to_nat n) 0 !! Z.to_nat r) as [v|] eqn:Hl; simpl; [|done].
      by apply lookup_replicate in Hl as [-> _]. }
    unfold set_size.
    assert (r ∈ filter (λ x, root (mkDSU (seqZ 0 n) (replicate (Z.to_nat n) 0)) x = Some r)
                       (seqZ 0 (size (mkDSU (seqZ 0 n) (replicate (Z.to_nat n) 0))))) as Hin.
    { apply list_elem_of_filter. split; [done|]. apply elem_of_seqZ. lia. }
    destruct (filter _ _); [by apply elem_of_nil in Hin|]. simpl. lia.
Qed.

Lemma ranked_compress d x r :
  forest d = true → ranked d → root d x = Some r →
  ranked (mkDSU (redirect (parent d) (path d x) r) (rank_ d)).
Proof.
  intros Hf Hrk Hr.
  destruct (compress_forest d x r Hf Hr) as [Hf' Hs].
  set (d' := mkDSU (redirect (parent d) (path d x) r) (rank_ d)) in *.
  assert (∀ z, rk d' z = rk d z) as Hrkeq by done.
  pose proof Hrk as (Hnn & Hup & Hsz). split; [|split].
  - intros z. rewrite Hrkeq. apply Hnn.
  - intros z y Hz Hl Hne. rewrite !Hrkeq. simpl in Hl.
    destruct (decide (z ∈ path d x)) as [Hin|Hnin].
    + destruct (path_in_range d x r z Hr Hin) as (Hzr & Hzroot & Hzne).
      rewrite redirect_lookup_in in Hl by (done || unfold size in Hzr; lia).
      injection Hl as <-. apply root_spec in Hzroot as [kz Hkz].
      pose proof (rk_below_root d Hrk _ _ _ Hkz).
      destruct kz; [|lia]. inversion Hkz; by subst.
    + rewrite redirect_lookup_out in Hl; [by apply Hup|done|done|].
      intros a Ha. destruct (path_in_range d x r a Hr Ha) as [? _]. lia.
  - intros r' Hr'. rewrite Hrkeq, (set_size_same_roots d d') by done.
    apply Hsz. destruct Hs as [_ Hroots]. by rewrite <- Hroots.
Qed.

Lemma filter_disjoint_or (P Q : Z → Prop)
    `{!∀ x, Decision (P x), !∀ x, Decision (Q x)} (l : list Z) :
  (∀ x, P x → Q x → False) →
  length (filter (λ x, P x ∨ Q x) l) = (length (filter P l) + length (filter Q l))%nat.
Proof.
  intros Hdis. induction l as [|a l IH]; [done|]. rewrite !filter_cons.
  destruct (decide (P a)) as [HP|HP], (decide (Q a)) as [HQ|HQ];
    destruct (decide (P a ∨ Q a)) as [HPQ|HPQ]; simpl; rewrite ?IH;
    try lia; exfalso; first [by eapply Hdis | apply HPQ; by auto | by destruct HPQ].
Qed.

Lemma ranked_link d rx ry kx ky :
  forest d = true → ranked d →
  root d rx = Some rx → root d ry = Some ry → rx ≠ ry →
  rank_ d !! Z.to_nat rx = Some kx → rank_ d !! Z.to_nat ry = Some ky →
  ranked (link d rx ry kx ky).
Proof.
  intros Hf Hrk Hx Hy Hne Hkx Hky.
  destruct (link_forest d rx ry kx ky Hf Hx Hy Hne) as (Hf' & Hsz' & Hroots').
  set (win := if kx <? ky then ry else rx) in *.
  set (lose := if kx <? ky then rx else ry) in *.
  assert (rk d rx = kx) as Hrkx by (unfold rk; by rewrite Hkx).
  assert (rk d ry = ky) as Hrky by (unfold rk; by rewrite Hky).
  pose proof (root_rank_small d rx Hf Hrk Hx) as Hsx.
  pose proof (root_rank_small d ry Hf Hrk Hy) as Hsy.
  pose proof (root_Some_range _ _ _ Hx) as [Hrxr _].
  pose proof (root_Some_range _ _ _ Hy) as [Hryr _].
  pose proof (lookup_lt_Some _ _ _ Hkx) as Hlenx.
  assert (∀ z, Z.to_nat z ≠ Z.to_nat rx ∨ kx ≠ ky → rk (link d rx ry kx ky) z = rk d z)
    as Hsame.
  { intros z Hz. unfold rk, link. destruct (kx <? ky); simpl;
      (destruct (Z.eqb_spec kx ky); [|done]);
      rewrite list_lookup_insert_ne by (destruct Hz; (done || lia)); done. }
  assert (kx = ky → rk (link d rx ry kx ky) rx = kx + 1) as Hbump.
  { intros Heq. unfold rk, link. destruct (Z.ltb_spec kx ky); [lia|]. simpl.
    destruct (Z.eqb_spec kx ky); [|done].
    rewrite list_lookup_insert_eq by done. simpl. apply add64_id. i64_bounds. lia. }
  assert (∀ z, rk d z ≤ rk (link d rx ry kx ky) z) as Hmono.
  { intros z. destruct (decide (Z.to_nat z = Z.to_nat rx)) as [Hz|Hz];
      [|rewrite Hsame by (by left); lia].
    destruct (Z.eq_dec kx ky) as [Heq|Hneq]; [|rewrite Hsame by (by right); lia].
    assert (∀ e, rk e z = rk e rx) as Hzx by (intros e; unfold rk; by rewrite Hz).
    rewrite !Hzx, Hbump by done. lia. }
  assert (parent (link d rx ry kx ky) = <[Z.to_nat lose := win]> (parent d)) as Hpar
    by (unfold link, win, lose; by destruct (kx <? ky)).
  assert (parent d !! Z.to_nat rx = Some rx) as Hprx by (apply root_self_iff; [lia|done]).
  assert (parent d !! Z.to_nat ry = Some ry) as Hpry by (apply root_self_iff; [lia|done]).
  pose proof Hrk as (Hnn & Hup & Hsz). split; [|split].
  - intros z. specialize (Hnn z). specialize (Hmono z). lia.
  - intros z y Hz Hl Hnz. rewrite Hpar in Hl.
    destruct (Z.eq_dec z lose) as [->|Hzl].
    + rewrite list_lookup_insert_eq in Hl
        by (unfold lose; destruct (kx <? ky); (eapply lookup_lt_Some; eassumption)).
      injection Hl as <-. unfold win, lose in *.
      destruct (Z.ltb_spec kx ky) as [Hlt|Hge].
      * rewrite !Hsame by (right; lia). lia.
      * destruct (Z.eq_dec kx ky) as [Heq|Hneq].
        -- rewrite Hbump by done. rewrite Hsame by (left; lia). lia.
        -- rewrite !Hsame by (by right). lia.
    + rewrite list_lookup_insert_ne in Hl
        by (unfold lose in *; destruct (kx <? ky); lia).
      specialize (Hup z y Hz Hl Hnz). specialize (Hmono y).
      rewrite (Hsame z); [lia|].
      destruct (Z.eq_dec z rx) as [->|Hzx]; [congruence|]. left. lia.
  - intros r' Hr'. rewrite Hroots' in Hr'.
    apply fmap_Some in Hr' as (r0 & Hr0 & Hf0).
    assert (root d win = Some win ∧ root d lose = Some lose ∧ win ≠ lose)
      as (Hwin & Hlose & Hwl) by (unfold win, lose; destruct (kx <? ky); done).
    assert (r0 = r' ∧ r' ≠ lose) as [-> Hrl].
    { case_decide as Hd; [|by subst]. exfalso. subst r0 r'. congruence. }
    clear Hf0.
    assert (∀ x, root (link d rx ry kx ky) x = Some r' ↔
                 root d x = Some r' ∨ (r' = win ∧ root d x = Some lose)) as Hiff.
    { intros x. rewrite Hroots'. split.
      - intros (r1 & Hr1 & Hf1)%fmap_Some. case_decide; subst; [by right|by left].
      - intros [Hl|[-> Hl]]; rewrite Hl; simpl; by case_decide. }
    unfold set_size. rewrite Hsz'.
    rewrite (filter_ext_in _ (λ x, root d x = Some r' ∨ (r' = win ∧ root d x = Some lose)))
      by (intros ??; apply Hiff).
    rewrite filter_disjoint_or by (intros x H1 [_ H2]; congruence).
    rewrite Nat2Z.inj_add. fold (set_size d r').
    pose proof (Hsz r' Hr0) as Hszr.
    destruct (Z.eq_dec r' win) as [->|Hnw].
    + rewrite (filter_ext_in (λ x, win = win ∧ root d x = Some lose)
                             (λ x, root d x = Some lose))
        by (intros ??; split; [by intros [_ ?]|by split]).
      fold (set_size d lose). pose proof (Hsz lose Hlose) as Hszl.
      unfold win, lose in *. destruct (Z.ltb_spec kx ky) as [Hlt|Hge].
      * rewrite Hsame by (right; lia). assert (0 < 2 ^ rk d rx) by (apply Z.pow_pos_nonneg; lia).
        lia.
      * destruct (Z.eq_dec kx ky) as [Heq|Hneq].
        -- rewrite Hbump by done. rewrite Z.pow_add_r by lia.
           change (2 ^ 1) with 2. rewrite Hrkx in Hszr.
           rewrite Hrky, <- Heq in Hszl. lia.
        -- rewrite Hsame by (by right).
           assert (0 < 2 ^ rk d ry) by (apply Z.pow_pos_nonneg; lia). lia.
    + rewrite (filter_ext_in (λ x, r' = win ∧ root d x = Some lose) (λ _, False))
        by (intros ??; split; [by intros [? _]|done]).
      assert (length (filter (λ _ : Z, False) (seqZ 0 (size d))) = O) as ->.
      { induction (seqZ 0 (size d)) as [|a l IH]; [done|].
        rewrite filter_cons_False by (by intros []). exact IH. }
      rewrite Hsame; [lia|].
      destruct (Z.eq_dec kx ky) as [Heq|Hneq]; [|by right]. left.
      unfold win, lose in *. destruct (Z.ltb_spec kx ky); [lia|].
      pose proof (root_Some_range _ _ _ Hr0). lia.
Qed.

(** The invariant of the states reachable from [DSU(n)]. *)
Lemma find_ranked d x :
  forest d = true → ranked d →
  ∃ r d', find d x = Done (r, d') ∧ forest d' = true ∧ ranked d' ∧ size d' = size d.
Proof.
  intros Hf Hrk. destruct (root d x) as [r|] eqn:Hr.
  - eexists r, _. split; [by apply find_valid|].
    destruct (compress_forest d x r Hf Hr) as [Hf' [Hsz _]].
    split; [done|]. split; [by apply ranked_compress|done].
  - apply root_None in Hr; [|done]. exists (-1), d. by rewrite find_invalid.
Qed.

Lemma components_loop_ranked fuel : ∀ d i c,
  forest d = true → ranked d → 0 ≤ i ≤ size d → (Z.to_nat (size d - i) < fuel)%nat →
  ∃ k d', components_loop fuel d i c = Done (k, d') ∧
    forest d' = true ∧ ranked d' ∧ size d' = size d.
Proof.
  induction fuel as [|fuel IH]; intros d i c Hf Hrk Hi Hfuel; [lia|].
  simpl. destruct (Z.ltb_spec i (size d)).
  - destruct (find_ranked d i Hf Hrk) as (r & d1 & -> & Hf1 & Hrk1 & Hsz1). simpl.
    destruct (IH d1 (i + 1) (if r =? i then add64 c 1 else c) Hf1 Hrk1)
      as (k & d' & Hrun & Hf' & Hrk' & Hsz'); [lia..|].
    exists k, d'. split; [done|]. split; [done|]. split; [done|]. lia.
  - by exists c, d.
Qed.

Lemma step_ranked d c :
  forest d = true → ranked d →
  ∃ d', step d c = Done d' ∧ forest d' = true ∧ ranked d' ∧ size d' = size d.
Proof.
  intros Hf Hrk. destruct c as [x|x y|x y|]; simpl.
  - destruct (find_ranked d x Hf Hrk) as (r & d' & -> & Hrest). by exists d'.
  - destruct (find_ranked d x Hf Hrk) as (px & d1 & Hfx & Hf1 & Hrk1 & Hsz1).
    destruct (find_ranked d1 y Hf1 Hrk1) as (py & d2 & Hfy & Hf2 & Hrk2 & Hsz2).
    destruct (unite_spec d x y Hf) as (d1' & d2' & Hfx' & Hfy' & _ & Hs2 & Hr2 & Hu).
    rewrite Hfx in Hfx'. injection Hfx' as _ <-.
    rewrite Hfy in Hfy'. injection Hfy' as _ <-.
    pose proof Hs2 as [_ Hroots2].
    destruct (root d x) as [rx|] eqn:Hx; [destruct (root d y) as [ry|] eqn:Hy|].
    + destruct (Z.eqb_spec rx ry) as [->|Hne];
        [rewrite Hu; exists d2; simpl; do 3 (split; [done|]); lia|].
      destruct Hu as (kx & ky & Hkx & Hky & ->). simpl.
      assert (root d2 rx = Some rx) as Hrx by (rewrite Hroots2; by eapply root_of_root).
      assert (root d2 ry = Some ry) as Hry by (rewrite Hroots2; by eapply root_of_root).
      rewrite <- Hr2 in Hkx, Hky.
      destruct (link_forest d2 rx ry kx ky Hf2 Hrx Hry Hne) as (Hf' & Hsz' & _).
      eexists. split; [done|]. split; [done|]. split; [by apply ranked_link|lia].
    + rewrite Hu. exists d2. simpl. do 3 (split; [done|]). lia.
    + rewrite Hu. exists d2. simpl. do 3 (split; [done|]). lia.
  - unfold connected.
    destruct (find_ranked d x Hf Hrk) as (px & d1 & -> & Hf1 & Hrk1 & Hsz1). simpl.
    destruct (find_ranked d1 y Hf1 Hrk1) as (py & d2 & -> & Hf2 & Hrk2 & Hsz2). simpl.
    exists d2. do 3 (split; [done|]). lia.
  - unfold components.
    destruct (components_loop_ranked (S (length (parent d))) d 0 0 Hf Hrk)
      as (k & d' & -> & Hrest); [unfold size; lia..|]. by exists d'.
Qed.

Lemma run_ranked cs : ∀ d,
  forest d = true → ranked d →
  ∃ d', run d cs = Done d' ∧ forest d' = true ∧ ranked d' ∧ size d' = size d.
Proof.
  induction cs as [|c cs IH]; intros d Hf Hrk; simpl; [by exists d|].
  destruct (step_ranked d c Hf Hrk) as (d1 & -> & Hf1 & Hrk1 & Hsz1). simpl.
  destruct (IH d1 Hf1 Hrk1) as (d' & Hrun & Hf' & Hrk' & Hsz').
  exists d'. split; [done|]. split; [done|]. split; [done|]. lia.
Qed.

(** Union by rank bounds the depth: in every state reached from [DSU(n)] by
    any sequence of [find], [unite], [connected] and [components] calls, a
    root of rank [k] has at least [2^k] elements in its set, and [find(x)]
    follows at most [log2(n)] parent entries before it reaches the root. *)
Theorem union_by_rank_is_logarithmic n cs :
  0 ≤ n ≤ vector_max_size →
  ∃ d0 d, new n = Done d0 ∧ run d0 cs = Done d ∧ forest d = true ∧ size d = n ∧
    (∀ r, root d r = Some r → 2 ^ rk d r ≤ set_size d r) ∧
    (∀ x, 0 ≤ x < n → Z.of_nat (length (path d x)) ≤ Z.log2 n).
Proof.
  intros Hn. destruct (new_forest n Hn) as [Hnew Hf0].
  destruct (run_ranked cs _ Hf0 (ranked_fresh n ltac:(lia)))
    as (d & Hrun & Hf & Hrk & Hsz).
  assert (size d = n) as Hsize
    by (rewrite Hsz; unfold size; simpl; rewrite length_seqZ; lia).
  eexists _, d. split; [done|]. split; [done|]. split; [done|]. split; [done|].
  split; [apply Hrk|]. intros x Hx. rewrite <- Hsize. apply ranked_path_short; (done || lia).
Qed.

Lemma union_by_rank_is_logarithmic_witness :
  ∃ d0 d, new 8 = Done d0 ∧
    run d0 [CallUnite 0 1; CallUnite 2 3; CallUnite 1 3; CallUnite 4 5;
            CallUnite 6 7; CallUnite 5 7; CallUnite 3 7; CallFind 7;
            CallComponents] = Done d ∧
    forest d = true ∧ size d = 8 ∧
    (∀ r, root d r = Some r → 2 ^ rk d r ≤ set_size d r) ∧
    (∀ x, 0 ≤ x < 8 → Z.of_nat (length (path d x)) ≤ Z.log2 8).
Proof.
  apply (union_by_rank_is_logarithmic 8). unfold vector_max_size. lia.
Defined.

End DsuMore.

(** ** Adjacency lists *)

Module GraphFacts.
Import I64Facts Graphs.

#[local] Set Warnings "-clear-no-such-hyp".

Lemma nodecount_push_back g u v : nodecount (push_back g u v) = nodecount g.
Proof. unfold nodecount, push_back. by rewrite length_alter. Qed.

Lemma adj_push_back g u v w :
  0 ≤ u < nodecount g → 0 ≤ w →
  adj (push_back g u v) w = adj g w ++ (if decide (w = u) then [v] else []).
Proof.
  intros Hu Hw. unfold adj, push_back, nodecount in *.
  destruct (Z.ltb_spec w 0); [lia|].
  case_decide as Hd.
  - subst w. rewrite list_lookup_alter_eq.
    destruct (lookup_lt_is_Some_2 g (Z.to_nat u)) as [a ->]; [lia|]. done.
  - rewrite list_lookup_alter_ne by lia. by rewrite app_nil_r.
Qed.

Lemma addedge_valid g a b :
  0 ≤ a < nodecount g → 0 ≤ b < nodecount g →
  addedge g a b = push_back (push_back g a b) b a.
Proof. intros Ha Hb. unfold addedge. zcmp; (lia || done). Qed.

Lemma addedge_invalid g a b :
  ¬ (0 ≤ a < nodecount g ∧ 0 ≤ b < nodecount g) → addedge g a b = g.
Proof. intros Hn. unfold addedge. zcmp; (lia || done). Qed.

Lemma nodecount_addedge g a b : nodecount (addedge g a b) = nodecount g.
Proof.
  destruct (decide (0 ≤ a < nodecount g ∧ 0 ≤ b < nodecount g)) as [[Ha Hb]|Hn].
  - rewrite addedge_valid by done. by rewrite !nodecount_push_back.
  - by rewrite addedge_invalid.
Qed.

Lemma adj_negative g u : u < 0 → adj g u = [].
Proof. intros Hu. unfold adj. by destruct (Z.ltb_spec u 0); [|lia]. Qed.

Lemma elem_of_adj_addedge g a b u v :
  v ∈ adj (addedge g a b) u ↔
  v ∈ adj g u ∨
  ((0 ≤ a < nodecount g ∧ 0 ≤ b < nodecount g) ∧ (u = a ∧ v = b ∨ u = b ∧ v = a)).
Proof.
  destruct (decide (0 ≤ a < nodecount g ∧ 0 ≤ b < nodecount g)) as [[Ha Hb]|Hn];
    [|rewrite addedge_invalid by done; naive_solver].
  rewrite addedge_valid by done.
  destruct (Z.lt_ge_cases u 0) as [Hneg|Hnn].
  { rewrite !adj_negative by done. split; [by intros ?%elem_of_nil|].
    intros [?%elem_of_nil|[_ [[-> _]|[-> _]]]]; (done || lia). }
  rewrite !adj_push_back by (rewrite ?nodecount_push_back; (done || lia)).
  rewrite !elem_of_app. repeat case_decide; subst;
    rewrite ?list_elem_of_singleton, ?elem_of_nil; naive_solver.
Qed.

Lemma elem_of_adj_addedges n es : ∀ g u v,
  nodecount g = n →
  v ∈ adj (addedges g es) u ↔
  v ∈ adj g u ∨ (u, v) ∈ valid_edges n es ∨ (v, u) ∈ valid_edges n es.
Proof.
  unfold valid_edges.
  induction es as [|[a b] es IH]; intros g u v Hn; simpl.
  - rewrite filter_nil, !elem_of_nil. naive_solver.
  - unfold addedges in *. simpl. rewrite IH by (by rewrite nodecount_addedge).
    rewrite elem_of_adj_addedge, filter_cons, Hn. simpl.
    case_decide as Hd; rewrite ?elem_of_cons; naive_solver.
Qed.

Lemma nodecount_addedges es : ∀ g, nodecount (addedges g es) = nodecount g.
Proof.
  unfold addedges. induction es as [|[a b] es IH]; intros g; simpl; [done|].
  by rewrite IH, nodecount_addedge.
Qed.

Lemma adj_fresh n u : adj (replicate (Z.to_nat n) []) u = [].
Proof.
  unfold adj. destruct (u <? 0); [done|].
  destruct (replicate (Z.to_nat n) [] !! Z.to_nat u) as [a|] eqn:Hl; [|done].
  by apply lookup_replicate in Hl as [-> _].
Qed.

(** A graph built by [makegraph(n)] and any sequence of [addedge] calls has
    [n] nodes; [v] is a neighbour of [u] exactly if one of the calls named
    the two (in either order) and both were nodes. So the adjacency is
    symmetric, every stored neighbour is a node, and calls with an endpoint
    outside [[0, n)] leave no trace. *)
Theorem addedge_builds_symmetric_graph n es :
  0 ≤ n ≤ graph_max_size →
  ∃ g0, makegraph n = Done g0 ∧
    nodecount (addedges g0 es) = n ∧
    (∀ u v, v ∈ adj (addedges g0 es) u ↔
            (u, v) ∈ valid_edges n es ∨ (v, u) ∈ valid_edges n es) ∧
    (∀ u v, v ∈ adj (addedges g0 es) u →
            0 ≤ u < n ∧ 0 ≤ v < n ∧ u ∈ adj (addedges g0 es) v).
Proof.
  intros Hn. exists (replicate (Z.to_nat n) []).
  assert (nodecount (replicate (Z.to_nat n) []) = n) as Hcount
    by (unfold nodecount; rewrite length_replicate; lia).
  assert (∀ u v, v ∈ adj (addedges (replicate (Z.to_nat n) []) es) u ↔
                 (u, v) ∈ valid_edges n es ∨ (v, u) ∈ valid_edges n es) as Hadj.
  { intros u v. rewrite (elem_of_adj_addedges n) by done.
    rewrite adj_fresh, elem_of_nil. naive_solver. }
  split; [unfold makegraph; zcmp; (lia || done)|].
  split; [by rewrite nodecount_addedges|]. split; [done|].
  intros u v Huv. rewrite Hadj. apply Hadj in Huv.
  unfold valid_edges in *. rewrite !list_elem_of_filter in *. simpl in *.
  destruct Huv as [[[Hu Hv] Hin]|[[Hv Hu] Hin]];
    (split; [lia|]); (split; [lia|]); [right|left]; (split; [lia|done]).
Qed.

Lemma addedge_builds_symmetric_graph_witness :
  ∃ g0, makegraph 4 = Done g0 ∧
    nodecount (addedges g0 [(0, 1); (1, 2); (7, 0); (3, 3)]) = 4 ∧
    (∀ u v, v ∈ adj (addedges g0 [(0, 1); (1, 2); (7, 0); (3, 3)]) u ↔
            (u, v) ∈ valid_edges 4 [(0, 1); (1, 2); (7, 0); (3, 3)] ∨
            (v, u) ∈ valid_edges 4 [(0, 1); (1, 2); (7, 0); (3, 3)]) ∧
    (∀ u v, v ∈ adj (addedges g0 [(0, 1); (1, 2); (7, 0); (3, 3)]) u →
            0 ≤ u < 4 ∧ 0 ≤ v < 4 ∧
            u ∈ adj (addedges g0 [(0, 1); (1, 2); (7, 0); (3, 3)]) v).
Proof.
  apply (addedge_builds_symmetric_graph 4). split; [lia|]. vm_compute. discriminate.
Defined.

(** *** Counting edges *)

Lemma edgecount_fold (g : Graph) : ∀ acc,
  foldl (λ count a, add64 count (Z.of_nat (length a))) (wrap64 acc) g
  = wrap64 (acc + Z.of_nat (length (concat g))).
Proof.
  induction g as [|a g IH]; intros acc; simpl.
  - by rewrite Z.add_0_r.
  - unfold add64 at 2. rewrite wrap64_add_l, IH, length_app. f_equal. lia.
Qed.

Lemma edgecount_concat (g : Graph) : edgecount g = wrap64 (Z.of_nat (length (concat g))).
Proof. exact (edgecount_fold g 0). Qed.

Lemma concat_push_back (g : Graph) u v :
  0 ≤ u < nodecount g →
  length (concat (push_back g u v)) = S (length (concat g)).
Proof.
  unfold push_back, nodecount. intros Hu.
  assert (Z.to_nat u < length g)%nat as Hlt by lia. clear Hu.
  revert Hlt. generalize (Z.to_nat u) as i. unfold alter.
  induction g as [|a g IH]; intros i Hi; simpl in *.
  - lia.
  - destruct i as [|i]; simpl; rewrite !length_app; simpl.
    + lia.
    + rewrite IH by lia. lia.
Qed.

Lemma total_addedges n es : ∀ g,
  nodecount g = n →
  Z.of_nat (length (concat (addedges g es))) =
  Z.of_nat (length (concat g)) + 2 * Z.of_nat (length (valid_edges n es)).
Proof.
  unfold addedges, valid_edges.
  induction es as [|[a b] es IH]; intros g Hn; simpl; [rewrite ?filter_nil; simpl; lia|].
  rewrite IH by (by rewrite nodecount_addedge). rewrite filter_cons. simpl.
  case_decide as Hd.
  - rewrite addedge_valid by (rewrite Hn; lia).
    rewrite !concat_push_back by (rewrite ?nodecount_push_back, Hn; lia). simpl. lia.
  - rewrite addedge_invalid by (rewrite Hn; lia). lia.
Qed.

(** [edgecount] counts every undirected edge twice: after [makegraph(n)]
    and any sequence of [addedge] calls it is twice the number of calls
    whose endpoints were both nodes (in [i64] arithmetic; a self-loop
    counts twice as well), and the degree of an index that is no node is 0. *)
Theorem edgecount_is_twice_the_edges n es :
  0 ≤ n ≤ graph_max_size →
  ∃ g0, makegraph n = Done g0 ∧
    edgecount (addedges g0 es) = wrap64 (2 * Z.of_nat (length (valid_edges n es))) ∧
    (∀ u, u < 0 ∨ n ≤ u → degree (addedges g0 es) u = 0).
Proof.
  intros Hn. exists (replicate (Z.to_nat n) []).
  assert (nodecount (replicate (Z.to_nat n) []) = n) as Hcount
    by (unfold nodecount; rewrite length_replicate; lia).
  split; [unfold makegraph; zcmp; (lia || done)|]. split.
  - rewrite edgecount_concat, (total_addedges n) by done. f_equal.
    assert (∀ k, concat (replicate k ([] : list Z)) = []) as ->
      by (intros k; induction k; [done|by simpl]).
    simpl. lia.
  - intros u Hu. unfold degree. rewrite nodecount_addedges, Hcount. zcmp; (lia || done).
Qed.

Lemma edgecount_is_twice_the_edges_witness :
  ∃ g0, makegraph 4 = Done g0 ∧
    edgecount (addedges g0 [(0, 1); (1, 2); (7, 0); (3, 3)]) = 6 ∧
    (∀ u, u < 0 ∨ 4 ≤ u → degree (addedges g0 [(0, 1); (1, 2); (7, 0); (3, 3)]) u = 0).
Proof.
  apply (edgecount_is_twice_the_edges 4). split; [lia|]. vm_compute. discriminate.
Defined.

End GraphFacts.

(** ** Safe access, checked arithmetic, bounds *)

Module HelperFacts.
Import I64Facts Safe Helpers.

(** [getat] indexes like Python: for a container of [n] elements, an index
    in [[0, n)] selects from the front, an index in [[-n, 0)] selects from
    the back, and every other index gives the empty Option; [getat(c, 0)]
    is [first(c)] and [getat(c, -1)] is [last(c)]. *)
Theorem getat_counts_from_both_ends {T} (c : list T) (idx : Z) :
  Z.of_nat (length c) ≤ max_i64 → in_i64 idx →
  (0 ≤ idx < Z.of_nat (length c) → getat c idx = c !! Z.to_nat idx) ∧
  (- Z.of_nat (length c) ≤ idx < 0 →
     getat c idx = c !! Z.to_nat (Z.of_nat (length c) + idx)) ∧
  (idx < - Z.of_nat (length c) ∨ Z.of_nat (length c) ≤ idx → getat c idx = None) ∧
  getat c 0 = first c ∧
  getat c (-1) = last c.
Proof.
  intros Hlen Hidx. unfold getat. split; [|split; [|split; [|split]]].
  - intros Hi. zcmp; (lia || done).
  - intros Hi. destruct (Z.ltb_spec idx 0); [|lia].
    rewrite add64_id by (i64_bounds; lia). zcmp; try lia. f_equal. lia.
  - intros Hi. destruct (Z.ltb_spec idx 0).
    + rewrite add64_id by (i64_bounds; lia). zcmp; (lia || done).
    + zcmp; (lia || done).
  - destruct c as [|x c]; [done|]. simpl. zcmp; (lia || done).
  - destruct c as [|x c]; [done|].
    rewrite add64_id by (i64_bounds; simpl length in *; lia).
    cbn [last]. destruct (_ <? 0) eqn:E; [simpl in E; zcmp; lia|].
    destruct (_ || _) eqn:E2; [simpl in E2; zcmp; lia|].
    f_equal. simpl. lia.
Qed.

Lemma getat_counts_from_both_ends_witness :
  getat [1; 2; 3; 4; 5] (-1) = Some 5 ∧ getat [1; 2; 3; 4; 5] (-5) = Some 1 ∧
  getat [1; 2; 3; 4; 5] 100 = None ∧ getat [1; 2; 3; 4; 5] (-6) = None.
Proof.
  assert (Z.of_nat (length [1; 2; 3; 4; 5]) ≤ max_i64) as Hlen by (vm_compute; discriminate).
  assert (∀ i, -10 ≤ i ≤ 100 → in_i64 i) as Hin by (intros i Hi; i64_bounds; lia).
  destruct (getat_counts_from_both_ends [1; 2; 3; 4; 5] (-1) Hlen) as (_ & H1 & _);
    [apply Hin; lia|].
  destruct (getat_counts_from_both_ends [1; 2; 3; 4; 5] (-5) Hlen) as (_ & H2 & _);
    [apply Hin; lia|].
  destruct (getat_counts_from_both_ends [1; 2; 3; 4; 5] 100 Hlen) as (_ & _ & H3 & _);
    [apply Hin; lia|].
  destruct (getat_counts_from_both_ends [1; 2; 3; 4; 5] (-6) Hlen) as (_ & _ & H4 & _);
    [apply Hin; lia|].
  split; [apply H1; simpl; lia|]. split; [apply H2; simpl; lia|].
  split; [apply H3; simpl; lia|apply H4; simpl; lia].
Defined.

(** *** trydiv and trymod *)

Lemma quot_in_i64 a b :
  in_i64 a → in_i64 b → b ≠ 0 → ¬ (a = min_i64 ∧ b = -1) → in_i64 (Z.quot a b).
Proof.
  intros Ha Hb Hb0 Hmin.
  pose proof (Z.quot_rem' a b) as Hqr.
  pose proof (Z.rem_bound_abs a b Hb0) as Hrb.
  pose proof (Z.rem_sign_mul a b Hb0) as Hrs.
  i64_bounds. nia.
Qed.

(** [trydiv] and [trymod] return Err exactly for a zero divisor; otherwise
    (the one overflowing pair [INT64_MIN / -1] apart) their results [q] and
    [r] satisfy [a == q * b + r] with [|r| < |b|] and [r] of the sign of
    [a]: division truncates towards zero. *)
Theorem trydiv_trymod_divide a b :
  in_i64 a → in_i64 b →
  (b = 0 → trydiv a b = Err "Division by zero"%string ∧
           trymod a b = Err "Modulo by zero"%string) ∧
  (b ≠ 0 → ¬ (a = min_i64 ∧ b = -1) →
     ∃ q r, trydiv a b = Ok q ∧ trymod a b = Ok r ∧ in_i64 q ∧
       a = q * b + r ∧ Z.abs r < Z.abs b ∧ 0 ≤ r * a).
Proof.
  intros Ha Hb. split.
  - intros ->. done.
  - intros Hb0 Hmin. unfold trydiv, trymod. destruct (Z.eqb_spec b 0); [done|].
    pose proof (Z.quot_rem' a b) as Hqr.
    pose proof (Z.rem_bound_abs a b Hb0) as Hrb.
    pose proof (Z.rem_sign_mul a b Hb0) as Hrs.
    pose proof (quot_in_i64 a b Ha Hb Hb0 Hmin) as Hq.
    exists (Z.quot a b), (Z.rem a b).
    rewrite !wrap64_id by (done || i64_bounds; lia).
    do 3 (split; [done|]). split; [lia|]. split; [done|lia].
Qed.

Lemma trydiv_trymod_divide_witness :
  ∃ q r, trydiv (-7) 2 = Ok q ∧ trymod (-7) 2 = Ok r ∧ in_i64 q ∧
    -7 = q * 2 + r ∧ Z.abs r < Z.abs 2 ∧ 0 ≤ r * -7.
Proof.
  apply (trydiv_trymod_divide (-7) 2); try (i64_bounds; lia).
Defined.

(** *** clamp *)

(** With [low <= high], [clamp] lands in [[low, high]], leaves the values
    of that interval alone, is the identity on its own results and is
    monotone. *)
Theorem clamp_into_interval value value' low high :
  low ≤ high →
  low ≤ clamp value low high ≤ high ∧
  (low ≤ value ≤ high → clamp value low high = value) ∧
  clamp (clamp value low high) low high = clamp value low high ∧
  (value ≤ value' → clamp value low high ≤ clamp value' low high).
Proof. intros Hle. unfold clamp. zcmp; lia. Qed.

Lemma clamp_into_interval_witness :
  0 ≤ clamp 15 0 10 ≤ 10 ∧
  (0 ≤ 15 ≤ 10 → clamp 15 0 10 = 15) ∧
  clamp (clamp 15 0 10) 0 10 = clamp 15 0 10 ∧
  (15 ≤ 20 → clamp 15 0 10 ≤ clamp 20 0 10).
Proof. apply (clamp_into_interval 15 20 0 10). lia. Defined.

(** *** ingrid *)

Lemma to_u64_nonneg z : 0 ≤ z ≤ max_i64 → to_u64 z = z.
Proof. intros Hz. unfold to_u64. apply Z.mod_small. i64_bounds. lia. Qed.

Lemma to_u64_negative z : min_i64 ≤ z < 0 → to_u64 z = z + 2 ^ 64.
Proof.
  intros Hz. unfold to_u64. rewrite <- (Z_mod_plus_full z 1 (2 ^ 64)).
  apply Z.mod_small. i64_bounds. lia.
Qed.

(** The unsigned comparison of [ingrid] is the four signed comparisons of
    grid.h's [inbounds], for every grid whose dimensions are not negative. *)
Theorem ingrid_is_inbounds r c rows cols :
  in_i64 r → in_i64 c → 0 ≤ rows ≤ max_i64 → 0 ≤ cols ≤ max_i64 →
  ingrid r c rows cols = grid_inbounds r c rows cols.
Proof.
  intros Hr Hc Hrows Hcols. unfold ingrid, grid_inbounds.
  rewrite (to_u64_nonneg rows), (to_u64_nonneg cols) by done.
  destruct (Z.lt_ge_cases r 0); destruct (Z.lt_ge_cases c 0);
    rewrite ?(to_u64_negative r), ?(to_u64_negative c),
            ?(to_u64_nonneg r), ?(to_u64_nonneg c) by (i64_bounds; lia);
    i64_bounds; zcmp; (lia || done).
Qed.

Lemma ingrid_is_inbounds_witness :
  ingrid (-1) 0 5 5 = grid_inbounds (-1) 0 5 5 ∧
  ingrid 4 4 5 5 = grid_inbounds 4 4 5 5 ∧
  ingrid 5 0 5 5 = grid_inbounds 5 0 5 5.
Proof.
  split; [|split]; apply ingrid_is_inbounds; i64_bounds; lia.
Defined.

(** *** toindex and tocoord *)

(** A cell of a grid with [cols] columns and its row-major index determine
    each other, as long as the index fits [i64]. *)
Theorem toindex_tocoord_round_trip r c cols index :
  (0 ≤ r → 0 ≤ c < cols → r * cols + c ≤ max_i64 →
     tocoord (toindex r c cols) cols = (r, c)) ∧
  (0 ≤ index ≤ max_i64 → 0 < cols ≤ max_i64 →
     toindex (tocoord index cols).1 (tocoord index cols).2 cols = index).
Proof.
  split.
  - intros Hr Hc Hmax. unfold toindex, tocoord.
    assert (0 ≤ r * cols) by nia.
    rewrite (wrap64_id (r * cols)) by (i64_bounds; lia).
    rewrite add64_id by (i64_bounds; lia).
    rewrite Z.quot_div_nonneg, Z.rem_mod_nonneg by lia.
    assert ((r * cols + c) `div` cols = r) as ->
      by (rewrite Z.div_add_l, Z.div_small by lia; lia).
    assert ((r * cols + c) `mod` cols = c) as ->
      by (rewrite Z.add_comm, Z_mod_plus_full; apply Z.mod_small; lia).
    by rewrite !wrap64_id by (i64_bounds; nia).
  - intros Hi Hcols. unfold toindex, tocoord. simpl.
    rewrite Z.quot_div_nonneg, Z.rem_mod_nonneg by lia.
    pose proof (Z.div_mod index cols ltac:(lia)) as Hdm.
    pose proof (Z.mod_pos_bound index cols ltac:(lia)) as Hmb.
    pose proof (Z.div_pos index cols ltac:(lia) ltac:(lia)) as Hdp.
    assert (index `div` cols ≤ index) by nia.
    rewrite (wrap64_id (index `div` cols)) by (i64_bounds; lia).
    rewrite (wrap64_id (index `mod` cols)) by (i64_bounds; lia).
    rewrite (wrap64_id (index `div` cols * cols)) by (i64_bounds; nia).
    rewrite add64_id by (i64_bounds; nia). lia.
Qed.

Lemma toindex_tocoord_round_trip_witness :
  tocoord (toindex 3 4 7) 7 = (3, 4) ∧
  toindex (tocoord 25 7).1 (tocoord 25 7).2 7 = 25.
Proof.
  destruct (toindex_tocoord_round_trip 3 4 7 25) as [H1 H2].
  split; [apply H1; i64_bounds; lia|apply H2; i64_bounds; lia].
Defined.

(** *** max and argmax *)

Lemma max_element_from_spec v : ∀ pre best bestv,
  pre !! best = Some bestv →
  (∀ x, x ∈ pre → x ≤ bestv) →
  (∀ j y, (j < best)%nat → pre !! j = Some y → y < bestv) →
  ∃ m, (pre ++ v) !! max_element_from best bestv (length pre) v = Some m ∧
    (∀ x, x ∈ pre ++ v → x ≤ m) ∧
    (∀ j y, (j < max_element_from best bestv (length pre) v)%nat →
            (pre ++ v) !! j = Some y → y < m).
Proof.
  induction v as [|x v IH]; intros pre best bestv Hbest Hall Hfirst; simpl.
  - rewrite app_nil_r. by exists bestv.
  - pose proof (lookup_lt_Some _ _ _ Hbest) as Hlt.
    replace (S (length pre)) with (length (pre ++ [x])) by (rewrite length_app; simpl; lia).
    rewrite (cons_middle x pre v), app_assoc.
    destruct (Z.ltb_spec bestv x) as [Hless|Hge].
    + apply IH.
      * rewrite lookup_app_r by lia. by rewrite Nat.sub_diag.
      * intros y [Hy|Hy%list_elem_of_singleton]%elem_of_app; [|lia].
        specialize (Hall y Hy). lia.
      * intros j y Hj Hl. rewrite lookup_app_l in Hl by done.
        assert (y ∈ pre) as Hy by (apply list_elem_of_lookup; by exists j).
        specialize (Hall y Hy). lia.
    + apply IH.
      * by rewrite lookup_app_l.
      * intros y [Hy|Hy%list_elem_of_singleton]%elem_of_app; [by apply Hall|lia].
      * intros j y Hj Hl. rewrite lookup_app_l in Hl by lia. by eapply Hfirst.
Qed.

(** [max] and [argmax] give the empty Option for an empty vector; otherwise
    [argmax] is the position of the first greatest element and [max] is the
    element there: nothing in the vector is greater, and everything before
    that position is strictly smaller. *)
Theorem max_is_first_greatest (v : list Z) :
  (v = [] → max v = None ∧ argmax v = None) ∧
  (v ≠ [] →
     ∃ m i, max v = Some m ∧ argmax v = Some (Z.of_nat i) ∧ v !! i = Some m ∧
       (∀ x, x ∈ v → x ≤ m) ∧
       (∀ j y, (j < i)%nat → v !! j = Some y → y < m)).
Proof.
  split; [by intros ->|]. intros Hne. destruct v as [|x v]; [done|].
  destruct (max_element_from_spec v [x] O x) as (m & Hm & Hall & Hfirst).
  - done.
  - intros y Hy%list_elem_of_singleton. lia.
  - intros j y Hj. lia.
  - exists m, (max_element (x :: v)). by repeat split.
Qed.

Lemma max_is_first_greatest_witness :
  ∃ m i, max [3; 1; 9; 1; 5; 9; 2; 6] = Some m ∧
    argmax [3; 1; 9; 1; 5; 9; 2; 6] = Some (Z.of_nat i) ∧
    [3; 1; 9; 1; 5; 9; 2; 6] !! i = Some m ∧
    (∀ x, x ∈ [3; 1; 9; 1; 5; 9; 2; 6] → x ≤ m) ∧
    (∀ j y, (j < i)%nat → [3; 1; 9; 1; 5; 9; 2; 6] !! j = Some y → y < m).
Proof. apply (max_is_first_greatest [3; 1; 9; 1; 5; 9; 2; 6]). discriminate. Defined.

End HelperFacts.

(** ** Laws of the combinators *)

Module SafeLaws.
Import Safe.

Lemma eff_bind_ret_r {W A} (m : eff W A) w : eff_bind m eff_ret w = m w.
Proof. unfold eff_bind, eff_ret. by destruct (m w) as [[a w']| | | |]. Qed.

Lemma eff_bind_assoc {W A B C} (m : eff W A) (f : A → eff W B) (g : B → eff W C) w :
  eff_bind (eff_bind m f) g w = eff_bind m (λ a, eff_bind (f a) g) w.
Proof. unfold eff_bind. by destruct (m w) as [[a w']| | | |]. Qed.

(** [Option] is a functor under [map] and a monad under [Some] and [then],
    whatever effects the callables have: mapping the identity changes
    nothing, two maps fuse into one, [then(Some)] changes nothing, chained
    [then]s associate; [otherwise] with a constant is [valueor]; and a
    mapped Option is present exactly if the original is. *)
Theorem option_combinators_compose {W T U V : Type} (o : Option T) (w : W) :
  map o eff_ret w = eff_ret o w ∧
  (∀ (f : T → eff W U) (g : U → eff W V),
     eff_bind (map o f) (λ o', map o' g) w = map o (λ x, eff_bind (f x) g) w) ∧
  then_ o (λ x, eff_ret (Some x)) w = eff_ret o w ∧
  (∀ (f : T → eff W (Option U)) (g : U → eff W (Option V)),
     eff_bind (then_ o f) (λ o', then_ o' g) w =
     then_ o (λ x, eff_bind (f x) (λ o', then_ o' g)) w) ∧
  (∀ def : T, otherwise o (λ _, eff_ret def) w = eff_ret (valueor o def) w) ∧
  (∀ (f : T → U), map o (λ x, eff_ret (f x)) w =
                  eff_ret (match o with Some v => Some (f v) | None => None end) w).
Proof.
  destruct o as [v|]; repeat split; intros; try reflexivity.
  unfold map. rewrite eff_bind_assoc. unfold eff_bind, eff_ret.
  by destruct (f v w) as [[u w']| | | |].
Qed.

(** The same for [Result], where an error short-circuits every chain:
    [map] and [then] pass an Err through all later steps untouched. *)
Theorem result_combinators_compose {W T U V E : Type} (r : Result T E) (w : W) :
  result_map r eff_ret w = eff_ret r w ∧
  (∀ (f : T → eff W U) (g : U → eff W V),
     eff_bind (result_map r f) (λ r', result_map r' g) w =
     result_map r (λ x, eff_bind (f x) g) w) ∧
  result_then r (λ x, eff_ret (Ok x)) w = eff_ret r w ∧
  (∀ (f : T → eff W (Result U E)) (g : U → eff W (Result V E)),
     eff_bind (result_then r f) (λ r', result_then r' g) w =
     result_then r (λ x, eff_bind (f x) (λ r', result_then r' g)) w) ∧
  (∀ (e : E) (f : T → eff W (Result U E)) (g : U → eff W V),
     r = Err e →
     eff_bind (result_then r f) (λ r', result_map r' g) w = Done (Err e, w)) ∧
  (∀ (f : T → eff W U) res w', result_map r f w = Done (res, w') → isok res = isok r).
Proof.
  destruct r as [v|e]; repeat split; intros; try (reflexivity || discriminate).
  - unfold result_map. rewrite eff_bind_assoc. unfold eff_bind, eff_ret.
    by destruct (f v w) as [[u w']| | | |].
  - unfold result_map, eff_bind, eff_ret in *.
    destruct (f v w) as [[u w'']| | | |]; by simplify_eq.
  - by simplify_eq.
  - unfold result_map, eff_ret in *. by simplify_eq.
Qed.

Lemma result_combinators_compose_witness :
  eff_bind (result_then (Err "bad"%string) (λ x : Z, eff_ret (Ok (x + 1))))
           (λ r', result_map (E:=string) r' (λ x : Z, eff_ret (x * 2))) tt
  = Done (Err "bad"%string, tt).
Proof.
  destruct (result_combinators_compose (T:=Z) (U:=Z) (V:=Z) (Err "bad"%string) tt)
    as (_ & _ & _ & _ & Hshort & _).
  exact (Hshort "bad"%string (λ x, eff_ret (Ok (x + 1))) (λ x, eff_ret (x * 2)) eq_refl).
Defined.

End SafeLaws.

(** * The examples of the cheat sheet *)

Example fenwick_cheatsheet :
  (t0 ← Fenwick.new 10;
   t ← Fenwick.updates t0 [(3, 5); (5, 10); (7, 3)];
   q ← Fenwick.query t 7;
   r ← Fenwick.rangequery t 3 5;
   Done (q, r)) = Done (18, 15).
Proof. vm_compute. reflexivity. Qed.

Example dsu_cheatsheet :
  (d ← Dsu.new 5;
   '(_, d) ← Dsu.unite d 0 1;
   '(_, d) ← Dsu.unite d 2 3;
   '(_, d) ← Dsu.unite d 1 2;
   '(c03, d) ← Dsu.connected d 0 3;
   '(c04, d) ← Dsu.connected d 0 4;
   '(k, d) ← Dsu.components d;
   Done (c03, c04, k)) = Done (true, false, 2).
Proof. vm_compute. reflexivity. Qed.
